(** * Wiggly Border Generator: the path pipeline, embedded and verified

    A shallow embedding of [wiggly-border.js] (the aspect-aware generation),
    of its older fixed-viewBox generation and of the colour controls of
    [app.js], with the properties the specification states about them and
    further properties read off the code.

    Numbers.  A JavaScript number is modelled as a real number: the
    arithmetic of the source ([+], [-], [*], [/], [Math.sin]) is the exact
    arithmetic of [R].  Rounding of binary64, [NaN] and the infinities are
    outside the model, so a division is only meaningful here when its
    divisor is not zero; the theorems carry the hypotheses that keep the
    inputs in that region.  Numbers that the source obtains from
    [Math.round] / [Math.floor] and then uses as counts are integers ([Z]),
    injected back with [IZR] where the source does arithmetic on them.
    Where a property is an exact identity between numbers, the module
    [Float64] gives the same functions in binary64, the arithmetic the
    source really runs, to show what of the identity the code keeps.

    Strings.  A template literal [`${n}`] converts a number with
    [Number::toString]; that conversion is a parameter of the development
    ([Number_toString]) and every theorem holds for any such function. *)

From Stdlib Require Import Reals Lra Lia ZArith List String Ascii Bool.
From Stdlib Require PrimFloat Uint63.
Import ListNotations.

#[local] Open Scope R_scope.

(** ** JavaScript built-ins used by the source *)

Module Math.

(** [Math.floor]: the greatest integer not above [x]. *)
Definition floor (x : R) : Z := Zfloor x.

(** [Math.round]: the integer closest to [x], ties towards +infinity,
    that is [floor (x + 0.5)]. *)
Definition round (x : R) : Z := Zfloor (x + 0.5).

(** [Math.max] on two integer-valued numbers. *)
Definition max (a b : Z) : Z := Z.max a b.

(** [Math.min] on two integer-valued numbers. *)
Definition min (a b : Z) : Z := Z.min a b.

(** [Math.sin]. *)
Definition sin (x : R) : R := Rtrigo_def.sin x.

End Math.

(** A small error monad: [None] is a thrown exception (here only the
    [TypeError] of reading a property of [undefined]). *)
Definition bind {A B : Type} (m : option A) (k : A -> option B) : option B :=
  match m with
  | Some a => k a
  | None => None
  end.

Notation "x <- m ;; k" := (bind m (fun x => k))
  (at level 61, m at next level, right associativity).

(** A counted [for] loop: [n] iterations, the index starting at [i] and
    incremented after each one, the loop's mutable state threaded through. *)
Fixpoint for_loop {St : Type} (n : nat) (i : Z) (body : Z -> St -> St) (s : St) : St :=
  match n with
  | O => s
  | S n' => for_loop n' (i + 1)%Z body (body i s)
  end.

(** [arr[k]]: [None] is [undefined] (an index outside the array). *)
Definition Array_get {A : Type} (arr : list A) (k : Z) : option A :=
  if (k <? 0)%Z then None else nth_error arr (Z.to_nat k).

(** [arr.length]. *)
Definition Array_length {A : Type} (arr : list A) : Z := Z.of_nat (List.length arr).

(** [arr.slice(start, end)], [end_ = None] when the argument is omitted:
    negative indices count from the end, both are clamped to the array. *)
Definition Array_slice {A : Type} (arr : list A) (start : Z) (end_ : option Z) : list A :=
  let len := Array_length arr in
  let clamp := fun r : Z => if (r <? 0)%Z then Z.max (len + r) 0 else Z.min r len in
  let k := clamp start in
  let final := match end_ with None => len | Some e => clamp e end in
  firstn (Z.to_nat (final - k)) (skipn (Z.to_nat k) arr).

(** ** Data *)

(** A point [{x, y}] ([px], [py] for the fields [x], [y]). *)
Record Point : Type := mkPoint { px : R; py : R }.

(** ** wiggly-border.js *)

Definition BASE_VIEWBOX_SIZE : R := 400.

Module EDGE_SEEDS.
Definition top : R := 1.23.
Definition right : R := 4.56.
Definition bottom : R := 7.89.
Definition left : R := 2.34.
End EDGE_SEEDS.

(** [getOrganicOffset] (lines 36-41). *)
Definition getOrganicOffset (index baseAmplitude seed : R) : R :=
  let variation :=
    Math.sin (index * 1.7 + seed) * 0.3
    + Math.sin (index * 2.3 + seed * 1.5) * 0.2
    + Math.sin (index * 0.9 + seed * 0.7) * 0.25 in
  baseAmplitude * (0.5 + variation).

(** [generateEdgePoints] (lines 56-80).  Its loop
    [for (let i = 0; i <= segments; i++)] runs [segments + 1] times (not at
    all when [segments] is negative); [points.push] appends to the array. *)
Definition generateEdgePoints (startX startY endX endY : R) (segments : Z)
    (amplitude seed : R) (perpDirection : Point) : list Point :=
  let points : list Point := [] in
  let dx := (endX - startX) / IZR segments in
  let dy := (endY - startY) / IZR segments in
  for_loop (Z.to_nat (segments + 1)) 0
    (fun i points =>
       let baseX := startX + dx * IZR i in
       let baseY := startY + dy * IZR i in
       if ((i =? 0) || (i =? segments))%Z then
         points ++ [ {| px := baseX; py := baseY |} ]
       else
         let offset := getOrganicOffset (IZR i) amplitude seed in
         let direction : R := if (Z.rem i 2 =? 0)%Z then 1 else -1 in
         points ++ [ {| px := baseX + px perpDirection * offset * direction;
                        py := baseY + py perpDirection * offset * direction |} ])
    points.

Record ViewBox : Type := mkViewBox { width : R; height : R }.

(** [calculateViewBox] (lines 124-140). *)
Definition calculateViewBox (targetWidth targetHeight : R) : ViewBox :=
  let aspectRatio := targetWidth / targetHeight in
  if Rge_dec aspectRatio 1 then
    {| width := BASE_VIEWBOX_SIZE * aspectRatio; height := BASE_VIEWBOX_SIZE |}
  else
    {| width := BASE_VIEWBOX_SIZE; height := BASE_VIEWBOX_SIZE / aspectRatio |}.

Record Segments : Type := mkSegments { horizontal : Z; vertical : Z }.

(** [calculateSegments] (lines 151-160). *)
Definition calculateSegments (horizontalLength verticalLength waveSegmentSize : R) : Segments :=
  let horizontalSegments := Math.max 4 (Math.round (horizontalLength / waveSegmentSize)) in
  let verticalSegments := Math.max 4 (Math.round (verticalLength / waveSegmentSize)) in
  {| horizontal := horizontalSegments; vertical := verticalSegments |}.

(** The strings of the source are built inside this section, whose
    variable is the conversion of a number by a template literal. *)
Section PathStrings.

Variable Number_toString : R -> string.

#[local] Open Scope string_scope.

(** [generateSmoothPath] (lines 91-115).  Its loop
    [for (let i = 0; i < points.length - 1; i++)] runs [points.length - 1]
    times; the state of the loop is the path built so far, or the exception
    thrown on the way. *)
Definition generateSmoothPath (points : list Point) : option string :=
  if (Array_length points <? 2)%Z then Some ""
  else
    let tension : R := 0.5 in
    first <- Array_get points 0 ;;
    let path := "M " ++ Number_toString (px first) ++ " " ++ Number_toString (py first) in
    for_loop (Z.to_nat (Array_length points - 1)) 0
      (fun i acc =>
         path <- acc ;;
         p0 <- Array_get points (Math.max 0 (i - 1)) ;;
         p1 <- Array_get points i ;;
         p2 <- Array_get points (i + 1)%Z ;;
         p3 <- Array_get points (Math.min (Array_length points - 1) (i + 2)) ;;
         let cp1x := (px p1 + ((px p2 - px p0) * tension) / 3)%R in
         let cp1y := (py p1 + ((py p2 - py p0) * tension) / 3)%R in
         let cp2x := (px p2 - ((px p3 - px p1) * tension) / 3)%R in
         let cp2y := (py p2 - ((py p3 - py p1) * tension) / 3)%R in
         Some (path ++ " C " ++ Number_toString cp1x ++ " " ++ Number_toString cp1y
                    ++ ", " ++ Number_toString cp2x ++ " " ++ Number_toString cp2y
                    ++ ", " ++ Number_toString (px p2) ++ " " ++ Number_toString (py p2)))
      (Some path).

End PathStrings.

(** The options object of [generateWigglyPath]; [None] is a property that
    is absent (undefined), which the destructuring replaces by its default. *)
Record Options : Type := mkOptions {
  waveAmplitude : option R;
  waveSegmentSize : option R;
  borderWidth : option R;
  targetWidth : option R;
  targetHeight : option R
}.

Definition withDefault (d : R) (v : option R) : R :=
  match v with
  | Some r => r
  | None => d
  end.

Record PathResult : Type := mkPathResult {
  pathData : string;
  viewBoxWidth : R;
  viewBoxHeight : R
}.

(** The local constants of [generateWigglyPath] that follow the
    computation of the viewBox, each as a function of the constants it is
    computed from (the section's variables). *)
Module Border.
Section Locals.

Variable Number_toString : R -> string.
Variables viewBoxWidth viewBoxHeight waveAmplitude waveSegmentSize borderWidth : R.

Definition padding : R := waveAmplitude + borderWidth.

Definition left : R := padding.
Definition right : R := viewBoxWidth - padding.
Definition top : R := padding.
Definition bottom : R := viewBoxHeight - padding.

Definition horizontalLength : R := right - left.
Definition verticalLength : R := bottom - top.

Definition segments : Segments :=
  calculateSegments horizontalLength verticalLength waveSegmentSize.

Definition topPoints : list Point :=
  generateEdgePoints left top right top (horizontal segments)
    waveAmplitude EDGE_SEEDS.top {| px := 0; py := -1 |}.

Definition rightPoints : list Point :=
  generateEdgePoints right top right bottom (vertical segments)
    waveAmplitude EDGE_SEEDS.right {| px := 1; py := 0 |}.

Definition bottomPoints : list Point :=
  generateEdgePoints right bottom left bottom (horizontal segments)
    waveAmplitude EDGE_SEEDS.bottom {| px := 0; py := 1 |}.

Definition leftPoints : list Point :=
  generateEdgePoints left bottom left top (vertical segments)
    waveAmplitude EDGE_SEEDS.left {| px := -1; py := 0 |}.

Definition allPoints : list Point :=
  topPoints ++ Array_slice rightPoints 1 None ++ Array_slice bottomPoints 1 None
            ++ Array_slice leftPoints 1 (Some (-1)%Z).

Definition pathData : option string :=
  smooth <- generateSmoothPath Number_toString allPoints ;;
  Some (smooth ++ " Z")%string.

End Locals.
End Border.

(** [generateWigglyPath] (lines 173-256). *)
Definition generateWigglyPath (Number_toString : R -> string) (options : Options)
    : option PathResult :=
  let waveAmplitude := withDefault 4 (waveAmplitude options) in
  let waveSegmentSize := withDefault 25 (waveSegmentSize options) in
  let borderWidth := withDefault 4 (borderWidth options) in
  let targetWidth := withDefault 400 (targetWidth options) in
  let targetHeight := withDefault 300 (targetHeight options) in
  let viewBox := calculateViewBox targetWidth targetHeight in
  let viewBoxWidth := width viewBox in
  let viewBoxHeight := height viewBox in
  pathData <- Border.pathData Number_toString viewBoxWidth viewBoxHeight
                waveAmplitude waveSegmentSize borderWidth ;;
  Some {| pathData := pathData;
          viewBoxWidth := viewBoxWidth;
          viewBoxHeight := viewBoxHeight |}.

(** ** The older generation (fixed 400x300 viewBox)

    Its [EDGE_SEEDS], [getOrganicOffset], [generateEdgePoints] and
    [generateSmoothPath] are, character for character, the functions of
    [wiggly-border.js] above, which this module reuses. *)
Module Legacy.

Definition VIEW_BOX_WIDTH : R := 400.
Definition VIEW_BOX_HEIGHT : R := 300.

Record Options : Type := mkOptions {
  waveAmplitude : option R;
  waveSegmentSize : option R;
  borderWidth : option R
}.

Section Locals.

Variable Number_toString : R -> string.
Variables waveAmplitude waveSegmentSize borderWidth : R.

Definition padding : R := waveAmplitude + borderWidth.

Definition horizontalSegments : Z :=
  Math.max 6 (Math.floor (VIEW_BOX_WIDTH / waveSegmentSize)).
Definition verticalSegments : Z :=
  Math.max 4 (Math.floor (VIEW_BOX_HEIGHT / waveSegmentSize)).

Definition left : R := padding.
Definition right : R := VIEW_BOX_WIDTH - padding.
Definition top : R := padding.
Definition bottom : R := VIEW_BOX_HEIGHT - padding.

Definition topPoints : list Point :=
  generateEdgePoints left top right top horizontalSegments
    waveAmplitude EDGE_SEEDS.top {| px := 0; py := -1 |}.

Definition rightPoints : list Point :=
  generateEdgePoints right top right bottom verticalSegments
    waveAmplitude EDGE_SEEDS.right {| px := 1; py := 0 |}.

Definition bottomPoints : list Point :=
  generateEdgePoints right bottom left bottom horizontalSegments
    waveAmplitude EDGE_SEEDS.bottom {| px := 0; py := 1 |}.

Definition leftPoints : list Point :=
  generateEdgePoints left bottom left top verticalSegments
    waveAmplitude EDGE_SEEDS.left {| px := -1; py := 0 |}.

Definition allPoints : list Point :=
  topPoints ++ Array_slice rightPoints 1 None ++ Array_slice bottomPoints 1 None
            ++ Array_slice leftPoints 1 (Some (-1)%Z).

Definition pathData : option string :=
  smooth <- generateSmoothPath Number_toString allPoints ;;
  Some (smooth ++ " Z")%string.

End Locals.

(** The older [generateWigglyPath] (lines 126-195 of the older file), which
    returns the path string alone. *)
Definition generateWigglyPath (Number_toString : R -> string) (options : Options)
    : option string :=
  let waveAmplitude := withDefault 4 (waveAmplitude options) in
  let waveSegmentSize := withDefault 25 (waveSegmentSize options) in
  let borderWidth := withDefault 4 (borderWidth options) in
  pathData Number_toString waveAmplitude waveSegmentSize borderWidth.

End Legacy.

(** ** The sampler and the sizer in binary64

    The same two functions of [wiggly-border.js] with the numbers of the
    source: [float] is IEEE 754 binary64 and its operations round to
    nearest, ties to even, as those of JavaScript do.  [Math.sin], whose
    rounding the language leaves to the implementation, is a parameter. *)
Module Float64.

Import PrimFloat.
#[local] Set Warnings "-inexact-float".

Record Point : Type := mkPoint { x : float; y : float }.

(** The number that a loop counter or a segment count is (a non-negative
    integer, exact below 2^53). *)
Definition ofZ (z : Z) : float := of_uint63 (Uint63.of_Z z).

Section Sampler.

Variable Math_sin : float -> float.

(** [getOrganicOffset] (lines 36-41). *)
Definition getOrganicOffset (index baseAmplitude seed : float) : float :=
  let variation :=
    (Math_sin (index * 1.7 + seed) * 0.3
     + Math_sin (index * 2.3 + seed * 1.5) * 0.2
     + Math_sin (index * 0.9 + seed * 0.7) * 0.25)%float in
  (baseAmplitude * (0.5 + variation))%float.

(** [generateEdgePoints] (lines 56-80). *)
Definition generateEdgePoints (startX startY endX endY : float) (segments : Z)
    (amplitude seed : float) (perpDirection : Point) : list Point :=
  let points : list Point := [] in
  let dx := ((endX - startX) / ofZ segments)%float in
  let dy := ((endY - startY) / ofZ segments)%float in
  for_loop (Z.to_nat (segments + 1)) 0
    (fun i points =>
       let baseX := (startX + dx * ofZ i)%float in
       let baseY := (startY + dy * ofZ i)%float in
       if ((i =? 0) || (i =? segments))%Z then
         points ++ [ {| x := baseX; y := baseY |} ]
       else
         let offset := getOrganicOffset (ofZ i) amplitude seed in
         let direction : float := if (Z.rem i 2 =? 0)%Z then 1%float else (-1)%float in
         points ++ [ {| x := (baseX + x perpDirection * offset * direction)%float;
                        y := (baseY + y perpDirection * offset * direction)%float |} ])
    points.

(** The point that the loop of [generateEdgePoints] pushes at index [i]. *)
Definition edgePointAt (startX startY endX endY : float) (segments : Z)
    (amplitude seed : float) (perpDirection : Point) (i : Z) : Point :=
  let dx := ((endX - startX) / ofZ segments)%float in
  let dy := ((endY - startY) / ofZ segments)%float in
  let baseX := (startX + dx * ofZ i)%float in
  let baseY := (startY + dy * ofZ i)%float in
  if ((i =? 0) || (i =? segments))%Z then
    {| x := baseX; y := baseY |}
  else
    let offset := getOrganicOffset (ofZ i) amplitude seed in
    let direction : float := if (Z.rem i 2 =? 0)%Z then 1%float else (-1)%float in
    {| x := (baseX + x perpDirection * offset * direction)%float;
       y := (baseY + y perpDirection * offset * direction)%float |}.

End Sampler.

Definition BASE_VIEWBOX_SIZE : float := 400%float.

Record ViewBox : Type := mkViewBox { width : float; height : float }.

(** [calculateViewBox] (lines 124-140); [aspectRatio >= 1] is
    [1 <= aspectRatio], false when the ratio is not a number. *)
Definition calculateViewBox (targetWidth targetHeight : float) : ViewBox :=
  let aspectRatio := (targetWidth / targetHeight)%float in
  if leb 1%float aspectRatio then
    {| width := (BASE_VIEWBOX_SIZE * aspectRatio)%float; height := BASE_VIEWBOX_SIZE |}
  else
    {| width := BASE_VIEWBOX_SIZE; height := (BASE_VIEWBOX_SIZE / aspectRatio)%float |}.

End Float64.

(** ** app.js: the colour controls

    [syncColorInputs] gives each colour of the application state a colour
    picker and a text field, and three event handlers.  The model keeps what
    the handlers compute with: the content of the text field and the colour
    stored in [state[stateKey]].  The picker's own value and the preview
    that [updatePreview] redraws are the browser's and are left out. *)
Module App.

(** [String.prototype.toUpperCase] on a string of ASCII characters. *)
Definition upperChar (c : ascii) : ascii :=
  let n := nat_of_ascii c in
  if ((97 <=? n) && (n <=? 122))%nat then ascii_of_nat (n - 32) else c.

Fixpoint toUpperCase (s : string) : string :=
  match s with
  | EmptyString => EmptyString
  | String c s' => String (upperChar c) (toUpperCase s')
  end.

(** [value.startsWith("#")]. *)
Definition startsWithHash (value : string) : bool :=
  match value with
  | String "#" _ => true
  | _ => false
  end.

(** A string is truthy when it is not empty. *)
Definition truthy (value : string) : bool :=
  match value with
  | EmptyString => false
  | String _ _ => true
  end.

(** The character class [[0-9A-Fa-f]]. *)
Definition isHexDigit (c : ascii) : bool :=
  let n := nat_of_ascii c in
  (((48 <=? n) && (n <=? 57)) || ((65 <=? n) && (n <=? 70))
   || ((97 <=? n) && (n <=? 102)))%nat.

(** [/^#[0-9A-Fa-f]{6}$/.test(value)]. *)
Definition isHexColor (value : string) : bool :=
  match value with
  | String "#" digits =>
      (String.length digits =? 6)%nat && forallb isHexDigit (list_ascii_of_string digits)
  | _ => false
  end.

(** One colour of the state with its text field: [text] is
    [textInput.value], [color] is [state[stateKey]]. *)
Record ColorControl : Type := mkColorControl { text : string; color : string }.

(** The picker's [input] handler; [value] is [e.target.value]. *)
Definition onPickerInput (value : string) (c : ColorControl) : ColorControl :=
  {| text := toUpperCase value; color := value |}.

(** The text field's [input] handler; [value] is [e.target.value], which
    the browser has stored in the field before it calls the handler. *)
Definition onTextInput (value : string) (c : ColorControl) : ColorControl :=
  let value :=
    if truthy value && negb (startsWithHash value) then ("#" ++ value)%string else value in
  if isHexColor value then {| text := text c; color := value |} else c.

(** The text field's [blur] handler. *)
Definition onTextBlur (c : ColorControl) : ColorControl :=
  {| text := toUpperCase (color c); color := color c |}.

(** The events of one colour control, and a run of them. *)
Inductive Event : Type :=
| PickerInput (value : string)
| TextInput (value : string)
| TextBlur.

Definition handle (c : ColorControl) (e : Event) : ColorControl :=
  match e with
  | PickerInput value => onPickerInput value c
  | TextInput value => onTextInput value {| text := value; color := color c |}
  | TextBlur => onTextBlur c
  end.

Definition run (events : list Event) (c : ColorControl) : ColorControl :=
  fold_left handle events c.

(** What the browser guarantees of an event: a colour picker only reports
    colours of the form #rrggbb. *)
Definition fromBrowser (e : Event) : Prop :=
  match e with
  | PickerInput value => isHexColor value = true
  | _ => True
  end.

End App.

(** ** The specification's vocabulary

    These definitions follow the words of the specification, not the
    source; the theorems below compare the source's functions with them. *)

(** The parameter sets the specification calls valid. *)
Definition ValidParameters (amplitude segmentSize strokeInset targetWidth targetHeight : R)
    : Prop :=
  0 <= amplitude /\ 0 < segmentSize /\ 0 <= strokeInset /\
  0 < targetWidth /\ 0 < targetHeight.

(** The default parameter set. *)
Definition defaultOptions : Options :=
  {| waveAmplitude := Some 4; waveSegmentSize := Some 25; borderWidth := Some 4;
     targetWidth := Some 400; targetHeight := Some 300 |}.

(** Vector arithmetic on points. *)
Definition padd (p q : Point) : Point := {| px := px p + px q; py := py p + py q |}.
Definition psub (p q : Point) : Point := {| px := px p - px q; py := py p - py q |}.
Definition pscale (k : R) (p : Point) : Point := {| px := k * px p; py := k * py p |}.

Definition origin : Point := {| px := 0; py := 0 |}.

(** The linear interpolation position for index [i] on an edge cut in
    [segmentCount] segments. *)
Definition lerp (start end_ : Point) (segmentCount i : Z) : Point :=
  padd start (pscale (IZR i / IZR segmentCount) (psub end_ start)).

(** [direction i]: +1 when [i] is even, -1 when it is odd. *)
Definition direction (i : Z) : R := if Z.even i then 1 else -1.

(** The curve-draw instructions of a path. *)
Inductive PathCommand : Type :=
| MoveTo (p : Point)
| CurveTo (cp1 cp2 p : Point)
| ClosePath.

Definition isMoveTo (c : PathCommand) : bool :=
  match c with MoveTo _ => true | _ => false end.
Definition isCurveTo (c : PathCommand) : bool :=
  match c with CurveTo _ _ _ => true | _ => false end.
Definition isClosePath (c : PathCommand) : bool :=
  match c with ClosePath => true | _ => false end.

(** The point a command draws to (a close-path names none). *)
Definition endpoint (c : PathCommand) : option Point :=
  match c with
  | MoveTo p => Some p
  | CurveTo _ _ p => Some p
  | ClosePath => None
  end.

(** The fixed tension of the Catmull-Rom conversion. *)
Definition tension : R := 0.5.

(** The cubic Bezier command of the pair at index [i]: [p0] is the point at
    index [max 0 (i - 1)], [p3] the one at index [min (n - 1) (i + 2)]. *)
Definition catmullRomCurve (points : list Point) (i : nat) : PathCommand :=
  let n := List.length points in
  let p0 := nth (Nat.max 0 (i - 1)) points origin in
  let p1 := nth i points origin in
  let p2 := nth (i + 1) points origin in
  let p3 := nth (Nat.min (n - 1) (i + 2)) points origin in
  CurveTo (padd p1 (pscale (tension / 3) (psub p2 p0)))
          (psub p2 (pscale (tension / 3) (psub p3 p1)))
          p2.

(** A move-to the first point, then one curve per consecutive pair. *)
Definition splineCommands (points : list Point) : list PathCommand :=
  MoveTo (nth 0 points origin)
    :: map (catmullRomCurve points) (seq 0 (List.length points - 1)).

Section Rendering.

Variable Number_toString : R -> string.

#[local] Open Scope string_scope.

(** The text of one command, as a path string spells it. *)
Definition renderCommand (c : PathCommand) : string :=
  match c with
  | MoveTo p => "M " ++ Number_toString (px p) ++ " " ++ Number_toString (py p)
  | CurveTo cp1 cp2 p =>
      " C " ++ Number_toString (px cp1) ++ " " ++ Number_toString (py cp1)
        ++ ", " ++ Number_toString (px cp2) ++ " " ++ Number_toString (py cp2)
        ++ ", " ++ Number_toString (px p) ++ " " ++ Number_toString (py p)
  | ClosePath => " Z"
  end.

Fixpoint render (cs : list PathCommand) : string :=
  match cs with
  | [] => ""
  | c :: cs' => renderCommand c ++ render cs'
  end.

End Rendering.

(** The number of occurrences of a character in a string. *)
Fixpoint countChar (c : ascii) (s : string) : nat :=
  match s with
  | EmptyString => 0
  | String a s' => (if Ascii.eqb a c then 1 else 0) + countChar c s'
  end.

(** A number conversion never writes the character [c]. *)
Definition avoidsChar (c : ascii) (Number_toString : R -> string) : Prop :=
  forall r : R, countChar c (Number_toString r) = O.

(** A conversion to instantiate the parameter with in closed examples. *)
Definition sampleToString (r : R) : string := "0"%string.

(** ** Views of the loops, used by the proofs *)

(** The indices [i], [i + 1], ... visited by [n] iterations of a loop. *)
Definition indicesFrom (i : Z) (n : nat) : list Z :=
  map (fun k => (i + Z.of_nat k)%Z) (seq 0 n).

(** The point that the loop of [generateEdgePoints] pushes at index [i]. *)
Definition edgePointAt (startX startY endX endY : R) (segments : Z)
    (amplitude seed : R) (perpDirection : Point) (i : Z) : Point :=
  let dx := (endX - startX) / IZR segments in
  let dy := (endY - startY) / IZR segments in
  let baseX := startX + dx * IZR i in
  let baseY := startY + dy * IZR i in
  if ((i =? 0) || (i =? segments))%Z then
    {| px := baseX; py := baseY |}
  else
    let offset := getOrganicOffset (IZR i) amplitude seed in
    let direction : R := if (Z.rem i 2 =? 0)%Z then 1 else -1 in
    {| px := baseX + px perpDirection * offset * direction;
       py := baseY + py perpDirection * offset * direction |}.

(** One iteration of the loop of [generateSmoothPath]: the path after the
    iteration at index [i], from the path before it. *)
Definition smoothPathStep (Number_toString : R -> string) (points : list Point)
    (i : Z) (path : string) : option string :=
  let tension : R := 0.5 in
  p0 <- Array_get points (Math.max 0 (i - 1)) ;;
  p1 <- Array_get points i ;;
  p2 <- Array_get points (i + 1)%Z ;;
  p3 <- Array_get points (Math.min (Array_length points - 1) (i + 2)) ;;
  let cp1x := px p1 + ((px p2 - px p0) * tension) / 3 in
  let cp1y := py p1 + ((py p2 - py p0) * tension) / 3 in
  let cp2x := px p2 - ((px p3 - px p1) * tension) / 3 in
  let cp2y := py p2 - ((py p3 - py p1) * tension) / 3 in
  Some (path ++ " C " ++ Number_toString cp1x ++ " " ++ Number_toString cp1y
             ++ ", " ++ Number_toString cp2x ++ " " ++ Number_toString cp2y
             ++ ", " ++ Number_toString (px p2) ++ " " ++ Number_toString (py p2))%string.

(** ** Further vocabulary *)


(** The control points of a cubic Bezier command. *)
Definition firstControl (c : PathCommand) : option Point :=
  match c with
  | CurveTo cp1 _ _ => Some cp1
  | _ => None
  end.

Definition secondControl (c : PathCommand) : option Point :=
  match c with
  | CurveTo _ cp2 _ => Some cp2
  | _ => None
  end.


(** The four edges of the rectangle from [(left, top)] to [(right, bottom)],
    sampled with [h] and [v] segments and joined as both generations of
    [generateWigglyPath] join them. *)
Definition joinedEdges (left top right bottom : R) (h v : Z) (amplitude : R) : list Point :=
  generateEdgePoints left top right top h amplitude EDGE_SEEDS.top {| px := 0; py := -1 |}
  ++ tl (generateEdgePoints right top right bottom v amplitude EDGE_SEEDS.right
           {| px := 1; py := 0 |})
  ++ tl (generateEdgePoints right bottom left bottom h amplitude EDGE_SEEDS.bottom
           {| px := 0; py := 1 |})
  ++ removelast (tl (generateEdgePoints left bottom left top v amplitude EDGE_SEEDS.left
                       {| px := -1; py := 0 |})).

(** * Verification *)

(** ** Built-ins *)

Lemma round_bounds (x : R) :
  IZR (Math.round x) - 0.5 <= x < IZR (Math.round x) + 0.5.
Proof.
  unfold Math.round.
  pose proof (Zfloor_bound (x + 0.5)) as B.
  lra.
Qed.

Lemma round_eq (z : Z) (x : R) :
  IZR z - 0.5 <= x < IZR z + 0.5 -> Math.round x = z.
Proof.
  intros B. unfold Math.round. apply Zfloor_eq. lra.
Qed.

Lemma floor_eq (z : Z) (x : R) :
  IZR z <= x < IZR z + 1 -> Math.floor x = z.
Proof. exact (Zfloor_eq z x). Qed.

Lemma round_nonneg (x : R) : 0 <= x -> (0 <= Math.round x)%Z.
Proof.
  intros Hx. unfold Math.round.
  apply (Zfloor_lub 0). lra.
Qed.

Lemma round_below_one (x : R) : 0 <= x < 1 -> (0 <= Math.round x <= 1)%Z.
Proof.
  intros [H0 H1]. split.
  - now apply round_nonneg.
  - pose proof (round_bounds x) as [Hl _].
    assert (IZR (Math.round x) < IZR 2) as Hlt by lra.
    apply lt_IZR in Hlt. lia.
Qed.

(** ** C1: the Segment Density Calculator *)

(** C1, as the specification states it, fails: [calculateSegments] has no
    pair of per-axis floors of which the horizontal one is the larger.
    Whatever two floors describe its results, they are equal (at edge
    lengths 0 and segment size 1 both counts are 4). *)
Lemma calculateSegments_floors_not_distinct :
  ~ exists floorH floorV : Z,
      (floorV < floorH)%Z /\
      forall h v s : R, 0 < s ->
        calculateSegments h v s =
        {| horizontal := Z.max floorH (Math.round (h / s));
           vertical := Z.max floorV (Math.round (v / s)) |}.
Proof.
  intros (fh & fv & Hlt & Heq).
  specialize (Heq 0 0 1 ltac:(lra)).
  unfold calculateSegments, Math.max in Heq.
  assert (Math.round (0 / 1) = 0%Z) as R0 by (apply round_eq; simpl; lra).
  rewrite R0 in Heq.
  injection Heq as Hh Hv.
  lia.
Qed.

(** C1 (amended): for every pair of edge lengths and every positive segment
    size, each count is [max 4 (round (length / segmentSize))]: the floor is
    4 on both axes.  Neither count is below 4, and a count is exactly 4 when
    the segment size exceeds the (non-negative) edge length. *)
Theorem calculateSegments_floor (h v s : R) (Hs : 0 < s) :
  let counts := calculateSegments h v s in
  horizontal counts = Z.max 4 (Math.round (h / s)) /\
  vertical counts = Z.max 4 (Math.round (v / s)) /\
  (4 <= horizontal counts)%Z /\
  (4 <= vertical counts)%Z /\
  (0 <= h < s -> horizontal counts = 4%Z) /\
  (0 <= v < s -> vertical counts = 4%Z).
Proof.
  assert (forall l, 0 <= l < s -> Z.max 4 (Math.round (l / s)) = 4%Z) as Hsmall.
  { intros l [Hl0 Hls].
    assert (0 <= l / s < 1) as Hq.
    { split.
      - apply Rmult_le_pos; [lra | left; now apply Rinv_0_lt_compat].
      - apply (Rmult_lt_reg_r s); [lra |].
        unfold Rdiv. rewrite Rmult_assoc, Rinv_l by lra. lra. }
    pose proof (round_below_one _ Hq). lia. }
  cbn zeta. unfold calculateSegments, Math.max. cbn [horizontal vertical].
  repeat split; try lia; auto.
Qed.

Lemma calculateSegments_floor_witness :
  let counts := calculateSegments 10 10 25 in
  horizontal counts = Z.max 4 (Math.round (10 / 25)) /\
  vertical counts = Z.max 4 (Math.round (10 / 25)) /\
  (4 <= horizontal counts)%Z /\
  (4 <= vertical counts)%Z /\
  (0 <= 10 < 25 -> horizontal counts = 4%Z) /\
  (0 <= 10 < 25 -> vertical counts = 4%Z).
Proof. apply (calculateSegments_floor 10 10 25). lra. Defined.

(** ** C4: the Coordinate Space Sizer *)

Lemma ratio_ge_1 (tw th : R) : 0 < th -> (tw / th >= 1 <-> tw >= th).
Proof.
  intros Hh.
  assert (tw = tw / th * th) as E by (field; lra).
  split; intros H; [nra |].
  apply Rle_ge. apply (Rmult_le_reg_r th); [lra |]. lra.
Qed.

(** Over the reals: for positive target dimensions the coordinate space has
    the target's aspect ratio, the shorter axis is pinned to the base
    constant and the other one is the base constant scaled by the ratio; a
    square target gives the base constant on both axes. *)
Lemma calculateViewBox_aspect (tw th : R) (Hw : 0 < tw) (Hh : 0 < th) :
  let vb := calculateViewBox tw th in
  width vb / height vb = tw / th /\
  (tw >= th ->
     height vb = BASE_VIEWBOX_SIZE /\ width vb = BASE_VIEWBOX_SIZE * (tw / th)) /\
  (tw < th ->
     width vb = BASE_VIEWBOX_SIZE /\ height vb = BASE_VIEWBOX_SIZE * (th / tw)) /\
  calculateViewBox 300 300 =
    {| width := BASE_VIEWBOX_SIZE; height := BASE_VIEWBOX_SIZE |}.
Proof.
  cbn zeta. unfold calculateViewBox, BASE_VIEWBOX_SIZE.
  pose proof (ratio_ge_1 tw th Hh) as Hr.
  repeat split.
  - destruct (Rge_dec (tw / th) 1); cbn [width height]; field; lra.
  - destruct (Rge_dec (tw / th) 1) as [_ | n]; [reflexivity | tauto].
  - destruct (Rge_dec (tw / th) 1) as [_ | n]; [reflexivity | tauto].
  - destruct (Rge_dec (tw / th) 1) as [g | _]; [| reflexivity].
    apply Hr in g. lra.
  - destruct (Rge_dec (tw / th) 1) as [g | _]; cbn [height].
    + apply Hr in g. lra.
    + field. lra.
  - destruct (Rge_dec (300 / 300) 1) as [_ | n].
    + f_equal. lra.
    + exfalso. apply n. lra.
Qed.

Section SizerBinary64.

Import PrimFloat.

(** C4, as the specification states it, fails in the arithmetic of the
    source: at the target 400x300 the ratio of the returned width to the
    returned height is not 400/300, and at the target 300x400 the returned
    height, [400 / 0.75], is not [400 * (400 / 300)]. *)
Lemma calculateViewBox_binary64_inexact :
  let wide := Float64.calculateViewBox 400%float 300%float in
  let tall := Float64.calculateViewBox 300%float 400%float in
  eqb (Float64.width wide / Float64.height wide)%float (400 / 300)%float = false /\
  eqb (Float64.height tall) (400 * (400 / 300))%float = false /\
  (Float64.width wide / Float64.height wide)%float <> (400 / 300)%float /\
  Float64.height tall <> (400 * (400 / 300))%float.
Proof.
  cbv zeta. repeat split; try (vm_compute; reflexivity).
  - intros E. apply (f_equal (fun f => eqb f (400 / 300)%float)) in E.
    vm_compute in E. discriminate E.
  - intros E. apply (f_equal (fun f => eqb f (400 * (400 / 300))%float)) in E.
    vm_compute in E. discriminate E.
Qed.

(** In binary64 one axis is the base constant itself and the other is the
    rounded product or quotient that the branch computes. *)
Lemma calculateViewBox_binary64_pinned (fw fh : float) :
  let vb := Float64.calculateViewBox fw fh in
  if leb 1%float (fw / fh)%float
  then Float64.height vb = 400%float /\ Float64.width vb = (400 * (fw / fh))%float
  else Float64.width vb = 400%float /\ Float64.height vb = (400 / (fw / fh))%float.
Proof.
  cbv zeta. unfold Float64.calculateViewBox, Float64.BASE_VIEWBOX_SIZE.
  destruct (leb 1%float (fw / fh)%float); cbn [Float64.width Float64.height]; split; reflexivity.
Qed.

(** C4 (amended): [calculateViewBox] pins one axis to the base constant
    exactly and returns, for the other, the product [400 * (tw / th)] (when
    [tw / th >= 1]) or the quotient [400 / (tw / th)] (otherwise) that it
    computes, rounded as binary64 rounds; a 300x300 target gives the base
    constant on both axes.  In exact real arithmetic, for positive target
    dimensions, the test is [tw >= th], the quotient is [400 * (th / tw)]
    and the ratio of width to height is the target's ratio. *)
Theorem calculateViewBox_sizing (tw th : R) (Hw : 0 < tw) (Hh : 0 < th) :
  (let vb := calculateViewBox tw th in
   width vb / height vb = tw / th /\
   (tw >= th ->
      height vb = BASE_VIEWBOX_SIZE /\ width vb = BASE_VIEWBOX_SIZE * (tw / th)) /\
   (tw < th ->
      width vb = BASE_VIEWBOX_SIZE /\ height vb = BASE_VIEWBOX_SIZE * (th / tw)) /\
   calculateViewBox 300 300 =
     {| width := BASE_VIEWBOX_SIZE; height := BASE_VIEWBOX_SIZE |}) /\
  (forall fw fh : float,
     let vb := Float64.calculateViewBox fw fh in
     if leb 1%float (fw / fh)%float
     then Float64.height vb = 400%float /\ Float64.width vb = (400 * (fw / fh))%float
     else Float64.width vb = 400%float /\ Float64.height vb = (400 / (fw / fh))%float) /\
  Float64.calculateViewBox 300%float 300%float =
    {| Float64.width := 400%float; Float64.height := 400%float |}.
Proof.
  split; [exact (calculateViewBox_aspect tw th Hw Hh) |].
  split; [exact calculateViewBox_binary64_pinned |].
  vm_compute. reflexivity.
Qed.

Lemma calculateViewBox_sizing_witness :
  (let vb := calculateViewBox 400 300 in
   width vb / height vb = 400 / 300 /\
   (400 >= 300 ->
      height vb = BASE_VIEWBOX_SIZE /\ width vb = BASE_VIEWBOX_SIZE * (400 / 300)) /\
   (400 < 300 ->
      width vb = BASE_VIEWBOX_SIZE /\ height vb = BASE_VIEWBOX_SIZE * (300 / 400)) /\
   calculateViewBox 300 300 =
     {| width := BASE_VIEWBOX_SIZE; height := BASE_VIEWBOX_SIZE |}) /\
  (forall fw fh : float,
     let vb := Float64.calculateViewBox fw fh in
     if leb 1%float (fw / fh)%float
     then Float64.height vb = 400%float /\ Float64.width vb = (400 * (fw / fh))%float
     else Float64.width vb = 400%float /\ Float64.height vb = (400 / (fw / fh))%float) /\
  Float64.calculateViewBox 300%float 300%float =
    {| Float64.width := 400%float; Float64.height := 400%float |}.
Proof. apply (calculateViewBox_sizing 400 300); lra. Defined.

End SizerBinary64.

(** ** C6: the Wave Offset Function *)

(** C6: for a non-negative amplitude the offset is the amplitude times
    0.5 plus the three weighted sines, it lies between -0.25 and 1.25 times
    the amplitude, and its magnitude is at most 1.25 times the amplitude. *)
Theorem getOrganicOffset_bounds (index amplitude seed : R) (Ha : 0 <= amplitude) :
  getOrganicOffset index amplitude seed =
    amplitude * (0.5 + 0.3 * sin (1.7 * index + seed)
                     + 0.2 * sin (2.3 * index + 1.5 * seed)
                     + 0.25 * sin (0.9 * index + 0.7 * seed)) /\
  amplitude * -0.25 <= getOrganicOffset index amplitude seed <= amplitude * 1.25 /\
  Rabs (getOrganicOffset index amplitude seed) <= 1.25 * amplitude.
Proof.
  unfold getOrganicOffset, Math.sin. cbn zeta.
  replace (index * 1.7 + seed) with (1.7 * index + seed) by ring.
  replace (index * 2.3 + seed * 1.5) with (2.3 * index + 1.5 * seed) by ring.
  replace (index * 0.9 + seed * 0.7) with (0.9 * index + 0.7 * seed) by ring.
  pose proof (SIN_bound (1.7 * index + seed)) as B1.
  pose proof (SIN_bound (2.3 * index + 1.5 * seed)) as B2.
  pose proof (SIN_bound (0.9 * index + 0.7 * seed)) as B3.
  set (s1 := sin (1.7 * index + seed)) in *.
  set (s2 := sin (2.3 * index + 1.5 * seed)) in *.
  set (s3 := sin (0.9 * index + 0.7 * seed)) in *.
  assert (-0.25 <= 0.5 + (s1 * 0.3 + s2 * 0.2 + s3 * 0.25) <= 1.25) as Hv by lra.
  set (w := 0.5 + (s1 * 0.3 + s2 * 0.2 + s3 * 0.25)) in *.
  split; [unfold w; ring |].
  assert (amplitude * -0.25 <= amplitude * w <= amplitude * 1.25) as Hb by nra.
  split; [exact Hb |].
  apply Rabs_le. nra.
Qed.

Lemma getOrganicOffset_bounds_witness :
  getOrganicOffset 1 4 EDGE_SEEDS.top =
    4 * (0.5 + 0.3 * sin (1.7 * 1 + EDGE_SEEDS.top)
             + 0.2 * sin (2.3 * 1 + 1.5 * EDGE_SEEDS.top)
             + 0.25 * sin (0.9 * 1 + 0.7 * EDGE_SEEDS.top)) /\
  4 * -0.25 <= getOrganicOffset 1 4 EDGE_SEEDS.top <= 4 * 1.25 /\
  Rabs (getOrganicOffset 1 4 EDGE_SEEDS.top) <= 1.25 * 4.
Proof. apply (getOrganicOffset_bounds 1 4 EDGE_SEEDS.top). lra. Defined.

(** ** Loops *)

Lemma indicesFrom_S (i : Z) (n : nat) :
  indicesFrom i (S n) = i :: indicesFrom (i + 1) n.
Proof.
  unfold indicesFrom. cbn [seq map]. f_equal.
  - lia.
  - rewrite <- seq_shift, map_map. apply map_ext. intros k. lia.
Qed.

Lemma indicesFrom_length (i : Z) (n : nat) : List.length (indicesFrom i n) = n.
Proof. unfold indicesFrom. now rewrite length_map, length_seq. Qed.

Lemma indicesFrom_nth (i : Z) (n k : nat) :
  (k < n)%nat -> nth_error (indicesFrom i n) k = Some (i + Z.of_nat k)%Z.
Proof.
  intros Hk. unfold indicesFrom.
  rewrite nth_error_map, nth_error_nth' with (d := O) by now rewrite length_seq.
  rewrite seq_nth by exact Hk. reflexivity.
Qed.

Lemma for_loop_ext {St : Type} (f g : Z -> St -> St) (n : nat) :
  (forall i s, f i s = g i s) ->
  forall (i : Z) (s : St), for_loop n i f s = for_loop n i g s.
Proof.
  intros Hfg. induction n as [| n IH]; intros i s; cbn [for_loop]; [reflexivity |].
  now rewrite Hfg, IH.
Qed.

(** A loop that only pushes to an array builds the image of its indices. *)
Lemma for_loop_push {A : Type} (f : Z -> A) (n : nat) :
  forall (i : Z) (acc : list A),
    for_loop n i (fun j points => points ++ [f j]) acc = acc ++ map f (indicesFrom i n).
Proof.
  induction n as [| n IH]; intros i acc.
  - cbn. now rewrite app_nil_r.
  - cbn [for_loop]. rewrite IH, indicesFrom_S. cbn [map].
    now rewrite <- app_assoc.
Qed.

(** ** C5: the Edge Point Sampler *)

Lemma generateEdgePoints_map sx sy ex ey segments amplitude seed perp :
  generateEdgePoints sx sy ex ey segments amplitude seed perp =
  map (edgePointAt sx sy ex ey segments amplitude seed perp)
      (indicesFrom 0 (Z.to_nat (segments + 1))).
Proof.
  unfold generateEdgePoints. cbv zeta.
  rewrite <- (app_nil_l (map _ _)), <- for_loop_push.
  apply for_loop_ext. intros i points. unfold edgePointAt.
  now destruct ((i =? 0) || (i =? segments))%Z.
Qed.

Lemma generateEdgePoints_length sx sy ex ey segments amplitude seed perp :
  List.length (generateEdgePoints sx sy ex ey segments amplitude seed perp) =
  Z.to_nat (segments + 1).
Proof. now rewrite generateEdgePoints_map, length_map, indicesFrom_length. Qed.

Lemma generateEdgePoints_nth sx sy ex ey segments amplitude seed perp (i : Z) :
  (0 <= i <= segments)%Z ->
  nth_error (generateEdgePoints sx sy ex ey segments amplitude seed perp) (Z.to_nat i) =
  Some (edgePointAt sx sy ex ey segments amplitude seed perp i).
Proof.
  intros Hi. rewrite generateEdgePoints_map, nth_error_map, indicesFrom_nth by lia.
  cbn. do 2 f_equal. lia.
Qed.

Lemma edgePointAt_first sx sy ex ey segments amplitude seed perp :
  edgePointAt sx sy ex ey segments amplitude seed perp 0 = {| px := sx; py := sy |}.
Proof. unfold edgePointAt. cbn. f_equal; ring. Qed.

Lemma edgePointAt_last sx sy ex ey segments amplitude seed perp :
  (1 <= segments)%Z ->
  edgePointAt sx sy ex ey segments amplitude seed perp segments = {| px := ex; py := ey |}.
Proof.
  intros Hn. unfold edgePointAt.
  rewrite Z.eqb_refl, orb_true_r.
  assert (IZR segments <> 0) as Hnz by (apply not_0_IZR; lia).
  f_equal; field; exact Hnz.
Qed.

Lemma direction_rem (i : Z) :
  (0 <= i)%Z -> (if (Z.rem i 2 =? 0)%Z then 1 else -1) = direction i.
Proof.
  intros Hi. unfold direction.
  rewrite Z.rem_mod_nonneg, Zmod_even by lia.
  now destruct (Z.even i).
Qed.

Lemma edgePointAt_interior (start end_ : Point) segments amplitude seed perp (i : Z) :
  (1 <= i < segments)%Z ->
  edgePointAt (px start) (py start) (px end_) (py end_) segments amplitude seed perp i =
  padd (lerp start end_ segments i)
       (pscale (getOrganicOffset (IZR i) amplitude seed * direction i) perp).
Proof.
  intros Hi. unfold edgePointAt.
  replace (i =? 0)%Z with false by (symmetry; apply Z.eqb_neq; lia).
  replace (i =? segments)%Z with false by (symmetry; apply Z.eqb_neq; lia).
  cbn [orb]. rewrite direction_rem by lia.
  assert (IZR segments <> 0) as Hnz by (apply not_0_IZR; lia).
  cbv [padd lerp pscale psub px py].
  f_equal; field; exact Hnz.
Qed.

(** Over the reals: an edge cut in [segmentCount >= 1] segments is sampled
    in exactly [segmentCount + 1] points; the first is [start] and the last
    is [end_]; the interior point [i] is the linear interpolation position
    for [i] displaced along the normal by the wave offset times
    [direction i]; with amplitude 0 it is the interpolation position
    itself. *)
Lemma generateEdgePoints_spec (start end_ : Point) (segmentCount : Z)
    (amplitude seed : R) (outwardNormal : Point) (Hcount : (1 <= segmentCount)%Z) :
  let points :=
    generateEdgePoints (px start) (py start) (px end_) (py end_)
      segmentCount amplitude seed outwardNormal in
  Array_length points = (segmentCount + 1)%Z /\
  Array_get points 0 = Some start /\
  Array_get points segmentCount = Some end_ /\
  (forall i : Z, (1 <= i < segmentCount)%Z ->
     Array_get points i =
     Some (padd (lerp start end_ segmentCount i)
                (pscale (getOrganicOffset (IZR i) amplitude seed * direction i)
                        outwardNormal))) /\
  (amplitude = 0 ->
   forall i : Z, (1 <= i < segmentCount)%Z ->
     Array_get points i = Some (lerp start end_ segmentCount i)).
Proof.
  cbn zeta.
  assert (forall i : Z, (1 <= i < segmentCount)%Z ->
     Array_get (generateEdgePoints (px start) (py start) (px end_) (py end_)
                  segmentCount amplitude seed outwardNormal) i =
     Some (padd (lerp start end_ segmentCount i)
                (pscale (getOrganicOffset (IZR i) amplitude seed * direction i)
                        outwardNormal))) as Hinterior.
  { intros i Hi. unfold Array_get.
    replace (i <? 0)%Z with false by (symmetry; apply Z.ltb_ge; lia).
    rewrite generateEdgePoints_nth by lia.
    now rewrite edgePointAt_interior. }
  split; [| split; [| split; [| split]]].
  - unfold Array_length. rewrite generateEdgePoints_length. lia.
  - unfold Array_get. cbn [Z.ltb Z.compare].
    rewrite (generateEdgePoints_nth _ _ _ _ _ _ _ _ 0) by lia.
    rewrite edgePointAt_first. now destruct start.
  - unfold Array_get.
    replace (segmentCount <? 0)%Z with false by (symmetry; apply Z.ltb_ge; lia).
    rewrite generateEdgePoints_nth by lia.
    rewrite edgePointAt_last by lia. now destruct end_.
  - exact Hinterior.
  - intros Hzero i Hi. rewrite Hinterior by exact Hi. f_equal.
    subst amplitude. unfold getOrganicOffset, padd, pscale. cbn [px py].
    destruct (lerp start end_ segmentCount i) as [lx ly]. cbn [px py].
    f_equal; ring.
Qed.

Section SamplerBinary64.

Import PrimFloat.
#[local] Set Warnings "-inexact-float".

Lemma Float64_generateEdgePoints_map (Math_sin : float -> float)
    sx sy ex ey segments amplitude seed perp :
  Float64.generateEdgePoints Math_sin sx sy ex ey segments amplitude seed perp =
  map (Float64.edgePointAt Math_sin sx sy ex ey segments amplitude seed perp)
      (indicesFrom 0 (Z.to_nat (segments + 1))).
Proof.
  unfold Float64.generateEdgePoints. cbv zeta.
  rewrite <- (app_nil_l (map _ _)), <- for_loop_push.
  apply for_loop_ext. intros i points. unfold Float64.edgePointAt.
  now destruct ((i =? 0) || (i =? segments))%Z.
Qed.

Lemma Float64_generateEdgePoints_get (Math_sin : float -> float)
    sx sy ex ey segments amplitude seed perp (i : Z) :
  (0 <= i <= segments)%Z ->
  Array_get (Float64.generateEdgePoints Math_sin sx sy ex ey segments amplitude seed perp) i =
  Some (Float64.edgePointAt Math_sin sx sy ex ey segments amplitude seed perp i).
Proof.
  intros Hi. unfold Array_get.
  replace (i <? 0)%Z with false by (symmetry; apply Z.ltb_ge; lia).
  rewrite Float64_generateEdgePoints_map, nth_error_map, indicesFrom_nth by lia.
  cbn. do 2 f_equal. lia.
Qed.

(** In binary64 the sampler still returns [segments + 1] points and pushes
    its first and last points without a wave offset: they are the values
    [start + d * 0] and [start + d * segments] that it computes. *)
Lemma Float64_generateEdgePoints_ends (Math_sin : float -> float)
    (sx sy ex ey : float) (segments : Z) (amplitude seed : float)
    (perp : Float64.Point) :
  (1 <= segments)%Z ->
  let points :=
    Float64.generateEdgePoints Math_sin sx sy ex ey segments amplitude seed perp in
  let dx := ((ex - sx) / Float64.ofZ segments)%float in
  let dy := ((ey - sy) / Float64.ofZ segments)%float in
  Array_length points = (segments + 1)%Z /\
  Array_get points 0 =
    Some {| Float64.x := (sx + dx * Float64.ofZ 0)%float;
            Float64.y := (sy + dy * Float64.ofZ 0)%float |} /\
  Array_get points segments =
    Some {| Float64.x := (sx + dx * Float64.ofZ segments)%float;
            Float64.y := (sy + dy * Float64.ofZ segments)%float |}.
Proof.
  intros Hn. cbv zeta. repeat split.
  - unfold Array_length.
    rewrite Float64_generateEdgePoints_map, length_map, indicesFrom_length. lia.
  - rewrite Float64_generateEdgePoints_get by lia. reflexivity.
  - rewrite Float64_generateEdgePoints_get by lia.
    unfold Float64.edgePointAt. now rewrite Z.eqb_refl, orb_true_r.
Qed.

(** C5, as the specification states it, fails in the arithmetic of the
    source: the last point is computed as [start + d * segments], and for
    the edge from (0, 0) to (1, 0) in 49 segments that is
    (0.9999999999999999, 0), whatever [Math.sin] returns, not the end
    (1, 0). *)
Lemma generateEdgePoints_binary64_last :
  (forall Math_sin : float -> float,
     Array_get
       (Float64.generateEdgePoints Math_sin 0%float 0%float 1%float 0%float 49
          4%float 1.23%float {| Float64.x := 0%float; Float64.y := (-1)%float |}) 49 =
     Some {| Float64.x := 0.9999999999999999%float; Float64.y := 0%float |}) /\
  eqb 0.9999999999999999%float 1%float = false /\
  ~ (exists Math_sin : float -> float,
       Array_get
         (Float64.generateEdgePoints Math_sin 0%float 0%float 1%float 0%float 49
            4%float 1.23%float {| Float64.x := 0%float; Float64.y := (-1)%float |}) 49 =
       Some {| Float64.x := 1%float; Float64.y := 0%float |}).
Proof.
  assert (forall Math_sin : float -> float,
     Array_get
       (Float64.generateEdgePoints Math_sin 0%float 0%float 1%float 0%float 49
          4%float 1.23%float {| Float64.x := 0%float; Float64.y := (-1)%float |}) 49 =
     Some {| Float64.x := 0.9999999999999999%float; Float64.y := 0%float |}) as Hlast.
  { intros Math_sin. rewrite Float64_generateEdgePoints_get by lia.
    vm_compute. reflexivity. }
  split; [exact Hlast |]. split; [vm_compute; reflexivity |].
  intros [Math_sin E]. rewrite Hlast in E.
  apply (f_equal (fun o => match o with
                           | Some p => eqb (Float64.x p) 1%float
                           | None => false
                           end)) in E.
  vm_compute in E. discriminate E.
Qed.

(** C5 (amended): an edge cut in [segmentCount >= 1] segments is sampled in
    exactly [segmentCount + 1] points, of which the first and the last are
    pushed without a wave offset, as the values [start + d * 0] and
    [start + d * segmentCount] with [d = (end - start) / segmentCount] that
    the code computes.  In exact real arithmetic the first is [start] and the
    last is [end_], the interior point [i] is the linear interpolation
    position for [i] displaced along the normal by the wave offset times
    [direction i], and with amplitude 0 it is the interpolation position
    itself. *)
Theorem generateEdgePoints_sampling (start end_ : Point) (segmentCount : Z)
    (amplitude seed : R) (outwardNormal : Point) (Hcount : (1 <= segmentCount)%Z) :
  (let points :=
     generateEdgePoints (px start) (py start) (px end_) (py end_)
       segmentCount amplitude seed outwardNormal in
   Array_length points = (segmentCount + 1)%Z /\
   Array_get points 0 = Some start /\
   Array_get points segmentCount = Some end_ /\
   (forall i : Z, (1 <= i < segmentCount)%Z ->
      Array_get points i =
      Some (padd (lerp start end_ segmentCount i)
                 (pscale (getOrganicOffset (IZR i) amplitude seed * direction i)
                         outwardNormal))) /\
   (amplitude = 0 ->
    forall i : Z, (1 <= i < segmentCount)%Z ->
      Array_get points i = Some (lerp start end_ segmentCount i))) /\
  (forall (Math_sin : float -> float) (sx sy ex ey a sd : float) (perp : Float64.Point),
     let points :=
       Float64.generateEdgePoints Math_sin sx sy ex ey segmentCount a sd perp in
     let dx := ((ex - sx) / Float64.ofZ segmentCount)%float in
     let dy := ((ey - sy) / Float64.ofZ segmentCount)%float in
     Array_length points = (segmentCount + 1)%Z /\
     Array_get points 0 =
       Some {| Float64.x := (sx + dx * Float64.ofZ 0)%float;
               Float64.y := (sy + dy * Float64.ofZ 0)%float |} /\
     Array_get points segmentCount =
       Some {| Float64.x := (sx + dx * Float64.ofZ segmentCount)%float;
               Float64.y := (sy + dy * Float64.ofZ segmentCount)%float |}).
Proof.
  split.
  - exact (generateEdgePoints_spec start end_ segmentCount amplitude seed
             outwardNormal Hcount).
  - intros Math_sin sx sy ex ey a sd perp.
    now apply Float64_generateEdgePoints_ends.
Qed.

Lemma generateEdgePoints_sampling_witness :
  (let start := {| px := 8; py := 8 |} in
   let end_ := {| px := 392; py := 8 |} in
   let normal := {| px := 0; py := -1 |} in
   let points := generateEdgePoints 8 8 392 8 15 4 EDGE_SEEDS.top normal in
   Array_length points = (15 + 1)%Z /\
   Array_get points 0 = Some start /\
   Array_get points 15 = Some end_ /\
   (forall i : Z, (1 <= i < 15)%Z ->
      Array_get points i =
      Some (padd (lerp start end_ 15 i)
                 (pscale (getOrganicOffset (IZR i) 4 EDGE_SEEDS.top * direction i)
                         normal))) /\
   (4 = 0 ->
    forall i : Z, (1 <= i < 15)%Z ->
      Array_get points i = Some (lerp start end_ 15 i))) /\
  (forall (Math_sin : float -> float) (sx sy ex ey a sd : float) (perp : Float64.Point),
     let points := Float64.generateEdgePoints Math_sin sx sy ex ey 15 a sd perp in
     let dx := ((ex - sx) / Float64.ofZ 15)%float in
     let dy := ((ey - sy) / Float64.ofZ 15)%float in
     Array_length points = (15 + 1)%Z /\
     Array_get points 0 =
       Some {| Float64.x := (sx + dx * Float64.ofZ 0)%float;
               Float64.y := (sy + dy * Float64.ofZ 0)%float |} /\
     Array_get points 15 =
       Some {| Float64.x := (sx + dx * Float64.ofZ 15)%float;
               Float64.y := (sy + dy * Float64.ofZ 15)%float |}).
Proof.
  apply (generateEdgePoints_sampling {| px := 8; py := 8 |} {| px := 392; py := 8 |} 15
           4 EDGE_SEEDS.top {| px := 0; py := -1 |}).
  lia.
Defined.

End SamplerBinary64.

(** ** Strings and arrays *)

Lemma append_assoc (a b c : string) : ((a ++ b) ++ c = a ++ (b ++ c))%string.
Proof. induction a as [| ch a IH]; cbn; [reflexivity | now rewrite IH]. Qed.

Lemma append_nil_r (a : string) : (a ++ "" = a)%string.
Proof. induction a as [| ch a IH]; cbn; [reflexivity | now rewrite IH]. Qed.

Lemma Array_get_nth {A : Type} (arr : list A) (k : nat) (d : A) :
  (k < List.length arr)%nat -> Array_get arr (Z.of_nat k) = Some (nth k arr d).
Proof.
  intros Hk. unfold Array_get.
  replace (Z.of_nat k <? 0)%Z with false by (symmetry; apply Z.ltb_ge; lia).
  rewrite Nat2Z.id. now apply nth_error_nth'.
Qed.

Lemma Array_slice_from_1 {A : Type} (arr : list A) :
  Array_slice arr 1 None = tl arr.
Proof.
  unfold Array_slice, Array_length. cbn [Z.ltb Z.compare].
  destruct arr as [| a arr]; [reflexivity |].
  cbn [List.length tl].
  replace (Z.to_nat (Z.min 1 (Z.of_nat (S (List.length arr))))) with 1%nat by lia.
  cbn [skipn]. apply firstn_all2.
  lia.
Qed.

Lemma Array_slice_inner {A : Type} (arr : list A) :
  Array_slice arr 1 (Some (-1)%Z) = removelast (tl arr).
Proof.
  unfold Array_slice, Array_length. cbn [Z.ltb Z.compare].
  destruct arr as [| a arr]; [reflexivity |].
  cbn [List.length tl].
  replace (Z.to_nat (Z.min 1 (Z.of_nat (S (List.length arr))))) with 1%nat by lia.
  cbn [skipn]. rewrite removelast_firstn_len. f_equal. lia.
Qed.

Section SplineVerification.

Variable Number_toString : R -> string.

Lemma render_app (cs ds : list PathCommand) :
  render Number_toString (cs ++ ds) =
  (render Number_toString cs ++ render Number_toString ds)%string.
Proof.
  induction cs as [| c cs IH]; cbn [render app]; [reflexivity |].
  now rewrite IH, append_assoc.
Qed.

(** One iteration of the loop appends the text of the Catmull-Rom curve of
    the pair at its index; inside the array no access is out of range. *)
Lemma smoothPathStep_curve (points : list Point) (k : nat) (path : string) :
  (S k < List.length points)%nat ->
  smoothPathStep Number_toString points (Z.of_nat k) path =
  Some (path ++ renderCommand Number_toString (catmullRomCurve points k))%string.
Proof.
  intros Hk. unfold smoothPathStep, catmullRomCurve, Math.max, Math.min, Array_length.
  replace (Z.max 0 (Z.of_nat k - 1)) with (Z.of_nat (Nat.max 0 (k - 1))) by lia.
  replace (Z.of_nat k + 1)%Z with (Z.of_nat (k + 1)) by lia.
  replace (Z.min (Z.of_nat (List.length points) - 1) (Z.of_nat k + 2))
    with (Z.of_nat (Nat.min (List.length points - 1) (k + 2))) by lia.
  rewrite !(Array_get_nth points _ origin) by lia.
  cbn [bind renderCommand padd psub pscale px py]. unfold tension.
  set (p0 := nth (Nat.max 0 (k - 1)) points origin).
  set (p1 := nth k points origin).
  set (p2 := nth (k + 1) points origin).
  set (p3 := nth (Nat.min (List.length points - 1) (k + 2)) points origin).
  replace (px p1 + (px p2 - px p0) * 0.5 / 3) with (px p1 + 0.5 / 3 * (px p2 - px p0)) by field.
  replace (py p1 + (py p2 - py p0) * 0.5 / 3) with (py p1 + 0.5 / 3 * (py p2 - py p0)) by field.
  replace (px p2 - (px p3 - px p1) * 0.5 / 3) with (px p2 - 0.5 / 3 * (px p3 - px p1)) by field.
  replace (py p2 - (py p3 - py p1) * 0.5 / 3) with (py p2 - 0.5 / 3 * (py p3 - py p1)) by field.
  reflexivity.
Qed.

Lemma smoothPath_loop (points : list Point) (n : nat) :
  forall (j : nat) (path : string),
    (j + n < List.length points)%nat ->
    for_loop n (Z.of_nat j)
      (fun i acc => path <- acc ;; smoothPathStep Number_toString points i path)
      (Some path) =
    Some (path ++ render Number_toString (map (catmullRomCurve points) (seq j n)))%string.
Proof.
  induction n as [| n IH]; intros j path Hj.
  - cbn. now rewrite append_nil_r.
  - cbn [for_loop bind seq map render].
    rewrite smoothPathStep_curve by lia.
    replace (Z.of_nat j + 1)%Z with (Z.of_nat (S j)) by lia.
    rewrite IH by lia. now rewrite append_assoc.
Qed.

Lemma generateSmoothPath_steps (points : list Point) :
  generateSmoothPath Number_toString points =
  if (Array_length points <? 2)%Z then Some ""%string
  else
    first <- Array_get points 0 ;;
    for_loop (Z.to_nat (Array_length points - 1)) 0
      (fun i acc => path <- acc ;; smoothPathStep Number_toString points i path)
      (Some ("M " ++ Number_toString (px first) ++ " " ++ Number_toString (py first))%string).
Proof. reflexivity. Qed.

(** On two points or more the converter returns the text of
    [splineCommands]. *)
Lemma generateSmoothPath_render (points : list Point) :
  (2 <= List.length points)%nat ->
  generateSmoothPath Number_toString points =
  Some (render Number_toString (splineCommands points)).
Proof.
  intros Hn. rewrite generateSmoothPath_steps. unfold Array_length.
  replace (Z.of_nat (List.length points) <? 2)%Z with false
    by (symmetry; apply Z.ltb_ge; lia).
  pose proof (Array_get_nth points 0 origin ltac:(lia)) as Hfirst.
  cbn [Z.of_nat] in Hfirst. rewrite Hfirst. cbn [bind].
  replace (Z.to_nat (Z.of_nat (List.length points) - 1)) with (List.length points - 1)%nat by lia.
  pose proof (smoothPath_loop points (List.length points - 1) 0) as Hloop.
  cbn [Z.of_nat] in Hloop. rewrite Hloop by lia.
  reflexivity.
Qed.

End SplineVerification.

Lemma countChar_app (c : ascii) (a b : string) :
  countChar c (a ++ b) = (countChar c a + countChar c b)%nat.
Proof. induction a as [| ch a IH]; cbn; [reflexivity | rewrite IH; lia]. Qed.

Lemma list_as_nth (points : list Point) :
  map (fun i => nth i points origin) (seq 0 (List.length points)) = points.
Proof.
  apply (nth_ext _ _ origin origin).
  - now rewrite length_map, length_seq.
  - intros k Hk. rewrite length_map, length_seq in Hk.
    rewrite (nth_indep _ origin (nth 0 points origin)) by now rewrite length_map, length_seq.
    rewrite (map_nth (fun i => nth i points origin) (seq 0 (List.length points)) O k).
    now rewrite seq_nth.
Qed.

Lemma splineCommands_endpoints (points : list Point) :
  points <> [] -> map endpoint (splineCommands points) = map Some points.
Proof.
  intros Hne. destruct points as [| p ps]; [congruence |].
  unfold splineCommands. cbn [map endpoint nth List.length]. f_equal.
  replace (S (List.length ps) - 1)%nat with (List.length ps) by lia.
  rewrite map_map.
  rewrite <- (list_as_nth ps) at 2. rewrite map_map.
  apply map_ext. intros i. unfold catmullRomCurve. cbn [endpoint].
  rewrite Nat.add_1_r. reflexivity.
Qed.

Lemma splineCommands_length (points : list Point) :
  points <> [] -> List.length (splineCommands points) = List.length points.
Proof.
  intros Hne. destruct points as [| p ps]; [congruence |].
  unfold splineCommands. cbn [List.length]. rewrite length_map, length_seq. lia.
Qed.

Lemma splineCommands_no_close (points : list Point) :
  ~ In ClosePath (splineCommands points).
Proof.
  unfold splineCommands. intros [H | H]; [discriminate |].
  apply in_map_iff in H as (i & Hi & _). unfold catmullRomCurve in Hi. discriminate.
Qed.

(** ** C7: the Spline-to-Bezier Converter *)

(** C7: on [n >= 2] points the converter returns the text of a move-to the
    first point followed by [n - 1] cubic Bezier commands; the command of
    the pair at index [i] has the control points
    [p1 + tension/3 (p2 - p0)] and [p2 - tension/3 (p3 - p1)] at tension
    0.5, with [p0] at index [max 0 (i - 1)] and [p3] at index
    [min (n - 1) (i + 2)], and ends at [p2]; the commands' endpoints are the
    input points in order, and no command is a close-path. *)
Theorem generateSmoothPath_spec (Number_toString : R -> string) (points : list Point)
    (Hn : (2 <= List.length points)%nat) :
  let n := List.length points in
  let commands := splineCommands points in
  generateSmoothPath Number_toString points = Some (render Number_toString commands) /\
  nth_error commands 0 = Some (MoveTo (nth 0 points origin)) /\
  List.length (filter isCurveTo commands) = (n - 1)%nat /\
  List.length commands = n /\
  (forall i : nat, (i < n - 1)%nat ->
     let p0 := nth (Nat.max 0 (i - 1)) points origin in
     let p1 := nth i points origin in
     let p2 := nth (i + 1) points origin in
     let p3 := nth (Nat.min (n - 1) (i + 2)) points origin in
     nth_error commands (S i) =
     Some (CurveTo (padd p1 (pscale (0.5 / 3) (psub p2 p0)))
                   (psub p2 (pscale (0.5 / 3) (psub p3 p1)))
                   p2)) /\
  map endpoint commands = map Some points /\
  ~ In ClosePath commands.
Proof.
  cbn zeta.
  assert (points <> []) as Hne by (intros ->; cbn in Hn; lia).
  split; [now apply generateSmoothPath_render |].
  split; [reflexivity |].
  split.
  { unfold splineCommands. cbn [filter isCurveTo isMoveTo].
    rewrite forallb_filter_id.
    - now rewrite length_map, length_seq.
    - apply forallb_forall. intros c Hc.
      apply in_map_iff in Hc as (i & <- & _). reflexivity. }
  split; [now apply splineCommands_length |].
  split.
  { intros i Hi. unfold splineCommands. cbn [nth_error].
    rewrite nth_error_map, nth_error_nth' with (d := O) by now rewrite length_seq.
    rewrite seq_nth by exact Hi. reflexivity. }
  split; [now apply splineCommands_endpoints |].
  apply splineCommands_no_close.
Qed.

Lemma generateSmoothPath_spec_witness :
  let points := [ {| px := 0; py := 0 |}; {| px := 3; py := 0 |}; {| px := 3; py := 6 |} ] in
  let n := List.length points in
  let commands := splineCommands points in
  generateSmoothPath sampleToString points = Some (render sampleToString commands) /\
  nth_error commands 0 = Some (MoveTo (nth 0 points origin)) /\
  List.length (filter isCurveTo commands) = (n - 1)%nat /\
  List.length commands = n /\
  (forall i : nat, (i < n - 1)%nat ->
     let p0 := nth (Nat.max 0 (i - 1)) points origin in
     let p1 := nth i points origin in
     let p2 := nth (i + 1) points origin in
     let p3 := nth (Nat.min (n - 1) (i + 2)) points origin in
     nth_error commands (S i) =
     Some (CurveTo (padd p1 (pscale (0.5 / 3) (psub p2 p0)))
                   (psub p2 (pscale (0.5 / 3) (psub p3 p1)))
                   p2)) /\
  map endpoint commands = map Some points /\
  ~ In ClosePath commands.
Proof.
  apply (generateSmoothPath_spec sampleToString
           [ {| px := 0; py := 0 |}; {| px := 3; py := 0 |}; {| px := 3; py := 6 |} ]).
  cbn. lia.
Defined.

(** ** C9: degenerate sequences *)

(** C9: on fewer than two points the converter returns the empty string; it
    does not throw. *)
Theorem generateSmoothPath_degenerate (Number_toString : R -> string)
    (points : list Point) (Hshort : (List.length points < 2)%nat) :
  generateSmoothPath Number_toString points = Some ""%string.
Proof.
  unfold generateSmoothPath, Array_length.
  replace (Z.of_nat (List.length points) <? 2)%Z with true
    by (symmetry; apply Z.ltb_lt; lia).
  reflexivity.
Qed.

Lemma generateSmoothPath_degenerate_witness :
  generateSmoothPath sampleToString [ {| px := 8; py := 8 |} ] = Some ""%string.
Proof.
  apply (generateSmoothPath_degenerate sampleToString [ {| px := 8; py := 8 |} ]).
  cbn. lia.
Defined.

(** ** The Path Assembler *)

Lemma indicesFrom_snoc (i : Z) (n : nat) :
  indicesFrom i (S n) = indicesFrom i n ++ [(i + Z.of_nat n)%Z].
Proof. unfold indicesFrom. now rewrite seq_S, map_app. Qed.


Lemma generateEdgePoints_last sx sy ex ey segments amplitude seed perp (d : Point) :
  (1 <= segments)%Z ->
  last (generateEdgePoints sx sy ex ey segments amplitude seed perp) d =
  {| px := ex; py := ey |}.
Proof.
  intros Hn. rewrite generateEdgePoints_map.
  replace (Z.to_nat (segments + 1)) with (S (Z.to_nat segments)) by lia.
  rewrite indicesFrom_snoc, map_app. cbn [map]. rewrite last_last.
  replace (0 + Z.of_nat (Z.to_nat segments))%Z with segments by lia.
  now apply edgePointAt_last.
Qed.

Lemma length_tl {A : Type} (l : list A) : List.length (tl l) = (List.length l - 1)%nat.
Proof. destruct l; cbn; lia. Qed.

Lemma length_removelast {A : Type} (l : list A) :
  List.length (removelast l) = (List.length l - 1)%nat.
Proof. rewrite removelast_firstn_len, length_firstn. lia. Qed.

Lemma calculateSegments_ge_4 (h v s : R) :
  (4 <= horizontal (calculateSegments h v s))%Z /\
  (4 <= vertical (calculateSegments h v s))%Z.
Proof. unfold calculateSegments, Math.max. cbn [horizontal vertical]. lia. Qed.

Lemma allPoints_concat W H a s b :
  Border.allPoints W H a s b =
  Border.topPoints W H a s b ++ tl (Border.rightPoints W H a s b)
    ++ tl (Border.bottomPoints W H a s b)
    ++ removelast (tl (Border.leftPoints W H a s b)).
Proof.
  unfold Border.allPoints. now rewrite !Array_slice_from_1, Array_slice_inner.
Qed.

Lemma allPoints_length W H a s b :
  Z.of_nat (List.length (Border.allPoints W H a s b)) =
  (2 * (horizontal (Border.segments W H a s b) + vertical (Border.segments W H a s b)))%Z.
Proof.
  rewrite allPoints_concat, !length_app, length_removelast, !length_tl.
  unfold Border.topPoints, Border.rightPoints, Border.bottomPoints, Border.leftPoints.
  rewrite !generateEdgePoints_length.
  destruct (calculateSegments_ge_4 (Border.horizontalLength W a b)
              (Border.verticalLength H a b) s) as [Hh Hv].
  fold (Border.segments W H a s b) in Hh, Hv. lia.
Qed.

Lemma pathData_render (Number_toString : R -> string) W H a s b :
  Border.pathData Number_toString W H a s b =
  Some (render Number_toString (splineCommands (Border.allPoints W H a s b) ++ [ClosePath])).
Proof.
  unfold Border.pathData.
  pose proof (allPoints_length W H a s b) as Hlen.
  destruct (calculateSegments_ge_4 (Border.horizontalLength W a b)
              (Border.verticalLength H a b) s) as [Hh Hv].
  fold (Border.segments W H a s b) in Hh, Hv.
  rewrite generateSmoothPath_render by lia.
  cbn [bind]. rewrite render_app. cbn [render renderCommand].
  now rewrite append_nil_r.
Qed.

Lemma generateWigglyPath_unfold (Number_toString : R -> string) (a s b tw th : R) :
  generateWigglyPath Number_toString
    {| waveAmplitude := Some a; waveSegmentSize := Some s; borderWidth := Some b;
       targetWidth := Some tw; targetHeight := Some th |} =
  Some {| pathData :=
            render Number_toString
              (splineCommands
                 (Border.allPoints (width (calculateViewBox tw th))
                    (height (calculateViewBox tw th)) a s b) ++ [ClosePath]);
          viewBoxWidth := width (calculateViewBox tw th);
          viewBoxHeight := height (calculateViewBox tw th) |}.
Proof.
  unfold generateWigglyPath. cbn [withDefault waveAmplitude waveSegmentSize borderWidth
                                  targetWidth targetHeight].
  now rewrite pathData_render.
Qed.

(** An options object without properties stands for the default
    parameter set. *)
Lemma generateWigglyPath_defaults (Number_toString : R -> string) :
  generateWigglyPath Number_toString
    {| waveAmplitude := None; waveSegmentSize := None; borderWidth := None;
       targetWidth := None; targetHeight := None |} =
  generateWigglyPath Number_toString defaultOptions.
Proof. reflexivity. Qed.

(** ** C8: concatenation of the four edges and closure *)



(** ** C10: the number of points and of commands *)

Lemma filter_app_length {A : Type} (f : A -> bool) (l1 l2 : list A) :
  List.length (filter f (l1 ++ l2)) =
  (List.length (filter f l1) + List.length (filter f l2))%nat.
Proof. now rewrite filter_app, length_app. Qed.

Lemma splineCommands_kinds (points : list Point) :
  List.length (filter isMoveTo (splineCommands points)) = 1%nat /\
  List.length (filter isCurveTo (splineCommands points)) = (List.length points - 1)%nat /\
  List.length (filter isClosePath (splineCommands points)) = 0%nat.
Proof.
  unfold splineCommands. cbn [filter isMoveTo isCurveTo isClosePath List.length].
  assert (forall l : list nat,
            filter isMoveTo (map (catmullRomCurve points) l) = [] /\
            filter isCurveTo (map (catmullRomCurve points) l) = map (catmullRomCurve points) l /\
            filter isClosePath (map (catmullRomCurve points) l) = []) as Hall.
  { induction l as [| i l (IH1 & IH2 & IH3)]; [now cbn |].
    cbn [map filter catmullRomCurve isMoveTo isCurveTo isClosePath].
    rewrite IH1, IH2, IH3. auto. }
  destruct (Hall (seq 0 (List.length points - 1))) as (-> & -> & ->).
  cbn [List.length]. now rewrite length_map, length_seq.
Qed.

(** C10: for every valid parameter set with segment counts [h] and [v] the
    edges contribute [h + 1], [v], [h] and [v - 1] points, the assembled
    sequence has [2 (h + v)] points, and the emitted path is one move-to,
    [2 (h + v) - 1] cubic Bezier commands and one close-path. *)
Theorem assembled_counts (Number_toString : R -> string) (a s b tw th : R)
    (Hvalid : ValidParameters a s b tw th) :
  let W := width (calculateViewBox tw th) in
  let H := height (calculateViewBox tw th) in
  let h := horizontal (Border.segments W H a s b) in
  let v := vertical (Border.segments W H a s b) in
  let allPoints := Border.allPoints W H a s b in
  let commands := splineCommands allPoints ++ [ClosePath] in
  Array_length (Border.topPoints W H a s b) = (h + 1)%Z /\
  Array_length (Array_slice (Border.rightPoints W H a s b) 1 None) = v /\
  Array_length (Array_slice (Border.bottomPoints W H a s b) 1 None) = h /\
  Array_length (Array_slice (Border.leftPoints W H a s b) 1 (Some (-1)%Z)) = (v - 1)%Z /\
  Array_length allPoints = (2 * (h + v))%Z /\
  generateWigglyPath Number_toString
    {| waveAmplitude := Some a; waveSegmentSize := Some s; borderWidth := Some b;
       targetWidth := Some tw; targetHeight := Some th |} =
  Some {| pathData := render Number_toString commands;
          viewBoxWidth := W; viewBoxHeight := H |} /\
  Z.of_nat (List.length (filter isMoveTo commands)) = 1%Z /\
  Z.of_nat (List.length (filter isCurveTo commands)) = (2 * (h + v) - 1)%Z /\
  Z.of_nat (List.length (filter isClosePath commands)) = 1%Z.
Proof.
  cbn zeta.
  set (W := width (calculateViewBox tw th)).
  set (H := height (calculateViewBox tw th)).
  destruct (calculateSegments_ge_4 (Border.horizontalLength W a b)
              (Border.verticalLength H a b) s) as [Hh Hv].
  fold (Border.segments W H a s b) in Hh, Hv.
  pose proof (allPoints_length W H a s b) as Hlen.
  destruct (splineCommands_kinds (Border.allPoints W H a s b)) as (Km & Kc & Kz).
  rewrite !Array_slice_from_1, Array_slice_inner.
  unfold Array_length.
  rewrite length_removelast, !length_tl, !filter_app_length, Km, Kc, Kz.
  unfold Border.topPoints, Border.rightPoints, Border.bottomPoints, Border.leftPoints.
  rewrite !generateEdgePoints_length.
  cbn [filter isMoveTo isCurveTo isClosePath List.length].
  repeat split; try lia.
  apply generateWigglyPath_unfold.
Qed.

Lemma assembled_counts_witness :
  let W := width (calculateViewBox 400 300) in
  let H := height (calculateViewBox 400 300) in
  let h := horizontal (Border.segments W H 4 25 4) in
  let v := vertical (Border.segments W H 4 25 4) in
  let allPoints := Border.allPoints W H 4 25 4 in
  let commands := splineCommands allPoints ++ [ClosePath] in
  Array_length (Border.topPoints W H 4 25 4) = (h + 1)%Z /\
  Array_length (Array_slice (Border.rightPoints W H 4 25 4) 1 None) = v /\
  Array_length (Array_slice (Border.bottomPoints W H 4 25 4) 1 None) = h /\
  Array_length (Array_slice (Border.leftPoints W H 4 25 4) 1 (Some (-1)%Z)) = (v - 1)%Z /\
  Array_length allPoints = (2 * (h + v))%Z /\
  generateWigglyPath sampleToString defaultOptions =
  Some {| pathData := render sampleToString commands;
          viewBoxWidth := W; viewBoxHeight := H |} /\
  Z.of_nat (List.length (filter isMoveTo commands)) = 1%Z /\
  Z.of_nat (List.length (filter isCurveTo commands)) = (2 * (h + v) - 1)%Z /\
  Z.of_nat (List.length (filter isClosePath commands)) = 1%Z.
Proof.
  apply (assembled_counts sampleToString 4 25 4 400 300).
  unfold ValidParameters. lra.
Defined.

(** ** C2: the default scenario *)

Lemma calculateViewBox_400_300 :
  calculateViewBox 400 300 = {| width := 1600 / 3; height := 400 |}.
Proof.
  unfold calculateViewBox, BASE_VIEWBOX_SIZE.
  destruct (Rge_dec (400 / 300) 1) as [_ | n].
  - f_equal. field.
  - exfalso. apply n. lra.
Qed.

Lemma default_segments :
  Border.segments (1600 / 3) 400 4 25 4 = {| horizontal := 21; vertical := 15 |}.
Proof.
  unfold Border.segments, calculateSegments, Math.max,
    Border.horizontalLength, Border.verticalLength,
    Border.right, Border.left, Border.bottom, Border.top, Border.padding.
  rewrite (round_eq 21), (round_eq 15); [reflexivity | lra | lra].
Qed.

(** C2, as the specification states it, fails at the default parameter
    set: the coordinate space is not 400x300, the working rectangle does
    not end at 392 and 292, the horizontal segment count is not 15 and the
    last point of the top edge is not (392, 8). *)
Lemma default_scenario_counterexample :
  let W := width (calculateViewBox 400 300) in
  let H := height (calculateViewBox 400 300) in
  W <> 400 /\
  H <> 300 /\
  Border.right W 4 4 <> 392 /\
  Border.bottom H 4 4 <> 292 /\
  horizontal (Border.segments W H 4 25 4) <> 15%Z /\
  last (Border.topPoints W H 4 25 4) origin <> {| px := 392; py := 8 |}.
Proof.
  cbn zeta. rewrite calculateViewBox_400_300. cbn [width height].
  unfold Border.topPoints. rewrite default_segments. cbn [horizontal].
  rewrite generateEdgePoints_last by lia.
  unfold Border.right, Border.bottom, Border.top, Border.padding.
  repeat split; try lra; try lia.
  intros E. injection E as Ex. lra.
Qed.

(** C2 (amended): at amplitude 4, segment size 25, stroke inset 4 and target
    400x300 the coordinate space is (1600/3)x400, the height pinned to the
    base constant; the padding is 8; the working rectangle is
    [8, 1576/3] x [8, 392]; the horizontal segment count is
    [max 4 (round ((1552/3) / 25)) = 21] and the vertical one 15; the top
    edge has 22 points, the first (8, 8) and the last (1576/3, 8); the
    result carries these viewBox dimensions. *)
Theorem default_scenario :
  let W := width (calculateViewBox 400 300) in
  let H := height (calculateViewBox 400 300) in
  let topPoints := Border.topPoints W H 4 25 4 in
  W = 1600 / 3 /\
  H = BASE_VIEWBOX_SIZE /\
  H = 400 /\
  Border.padding 4 4 = 8 /\
  Border.left 4 4 = 8 /\
  Border.right W 4 4 = 1576 / 3 /\
  Border.top 4 4 = 8 /\
  Border.bottom H 4 4 = 392 /\
  Border.horizontalLength W 4 4 = 1552 / 3 /\
  horizontal (Border.segments W H 4 25 4) = Z.max 4 (Math.round (1552 / 3 / 25)) /\
  horizontal (Border.segments W H 4 25 4) = 21%Z /\
  vertical (Border.segments W H 4 25 4) = 15%Z /\
  Array_length topPoints = 22%Z /\
  Array_get topPoints 0 = Some {| px := 8; py := 8 |} /\
  Array_get topPoints 21 = Some {| px := 1576 / 3; py := 8 |} /\
  forall Number_toString : R -> string,
    generateWigglyPath Number_toString defaultOptions =
    Some {| pathData :=
              render Number_toString
                (splineCommands (Border.allPoints (1600 / 3) 400 4 25 4) ++ [ClosePath]);
            viewBoxWidth := 1600 / 3;
            viewBoxHeight := 400 |}.
Proof.
  cbn zeta.
  assert (forall ts, generateWigglyPath ts defaultOptions =
            Some {| pathData :=
                      render ts
                        (splineCommands (Border.allPoints (1600 / 3) 400 4 25 4)
                           ++ [ClosePath]);
                    viewBoxWidth := 1600 / 3;
                    viewBoxHeight := 400 |}) as Hresult.
  { intros ts. unfold defaultOptions. rewrite generateWigglyPath_unfold.
    now rewrite calculateViewBox_400_300. }
  rewrite calculateViewBox_400_300. cbn [width height].
  assert (Math.round (1552 / 3 / 25) = 21%Z) as Hround by (apply round_eq; lra).
  rewrite Hround.
  unfold Border.topPoints. rewrite default_segments. cbn [horizontal vertical].
  unfold Array_length. rewrite generateEdgePoints_length.
  unfold Array_get. cbn [Z.ltb Z.compare].
  rewrite (generateEdgePoints_nth _ _ _ _ _ _ _ _ 0) by lia.
  rewrite (generateEdgePoints_nth _ _ _ _ _ _ _ _ 21) by lia.
  rewrite edgePointAt_first, edgePointAt_last by lia.
  unfold Border.horizontalLength, Border.right, Border.left, Border.bottom,
    Border.top, Border.padding, BASE_VIEWBOX_SIZE.
  repeat split; try lra; try lia; try (do 2 f_equal; lra).
  exact Hresult.
Qed.

(** ** C3: the two generations *)

Lemma Legacy_segments_ge_4 (s : R) :
  (4 <= Legacy.horizontalSegments s)%Z /\ (4 <= Legacy.verticalSegments s)%Z.
Proof. unfold Legacy.horizontalSegments, Legacy.verticalSegments, Math.max. lia. Qed.

Lemma Legacy_allPoints_length a s b :
  Z.of_nat (List.length (Legacy.allPoints a s b)) =
  (2 * (Legacy.horizontalSegments s + Legacy.verticalSegments s))%Z.
Proof.
  unfold Legacy.allPoints.
  rewrite !Array_slice_from_1, Array_slice_inner.
  rewrite !length_app, length_removelast, !length_tl.
  unfold Legacy.topPoints, Legacy.rightPoints, Legacy.bottomPoints, Legacy.leftPoints.
  rewrite !generateEdgePoints_length.
  destruct (Legacy_segments_ge_4 s) as [Hh Hv]. lia.
Qed.

Lemma Legacy_pathData_render (Number_toString : R -> string) a s b :
  Legacy.pathData Number_toString a s b =
  Some (render Number_toString (splineCommands (Legacy.allPoints a s b) ++ [ClosePath])).
Proof.
  unfold Legacy.pathData.
  pose proof (Legacy_allPoints_length a s b) as Hlen.
  destruct (Legacy_segments_ge_4 s) as [Hh Hv].
  rewrite generateSmoothPath_render by lia.
  cbn [bind]. rewrite render_app. cbn [render renderCommand].
  now rewrite append_nil_r.
Qed.

(** In the text of a path whose numbers are written without the letter C,
    that letter occurs once per cubic Bezier command. *)
Lemma countChar_C_render (Number_toString : R -> string) (cs : list PathCommand) :
  avoidsChar "C" Number_toString ->
  countChar "C" (render Number_toString cs) = List.length (filter isCurveTo cs).
Proof.
  intros Hav. induction cs as [| c cs IH]; [reflexivity |].
  cbn [render]. rewrite countChar_app, IH.
  destruct c as [p | cp1 cp2 p |]; cbn [filter isCurveTo List.length renderCommand].
  - repeat (progress cbn || rewrite countChar_app || rewrite Hav). reflexivity.
  - repeat (progress cbn || rewrite countChar_app || rewrite Hav). reflexivity.
  - reflexivity.
Qed.

Lemma fixed_viewBox_segments_25 :
  Border.segments Legacy.VIEW_BOX_WIDTH Legacy.VIEW_BOX_HEIGHT 4 25 4 =
  {| horizontal := 15; vertical := 11 |}.
Proof.
  unfold Border.segments, calculateSegments, Math.max,
    Border.horizontalLength, Border.verticalLength,
    Border.right, Border.left, Border.bottom, Border.top, Border.padding,
    Legacy.VIEW_BOX_WIDTH, Legacy.VIEW_BOX_HEIGHT.
  rewrite (round_eq 15), (round_eq 11); [reflexivity | lra | lra].
Qed.

Lemma Legacy_segments_25 :
  Legacy.horizontalSegments 25 = 16%Z /\ Legacy.verticalSegments 25 = 12%Z.
Proof.
  unfold Legacy.horizontalSegments, Legacy.verticalSegments, Math.max,
    Legacy.VIEW_BOX_WIDTH, Legacy.VIEW_BOX_HEIGHT.
  rewrite (floor_eq 16), (floor_eq 12); [split; reflexivity | lra | lra].
Qed.

(** C3, as the specification states it, fails: whatever conversion writes
    the numbers (as long as it never writes the letter C, which no number
    contains), the aspect-aware pipeline run on the 400x300 viewBox and the
    older pipeline do not produce the same path for every parameter set.
    At amplitude 4, segment size 25 and border width 4 the first has 15 and
    11 segments per edge and 51 curves, the second 16 and 12 segments and 55
    curves. *)
Lemma generations_differ :
  ~ exists Number_toString : R -> string,
      avoidsChar "C" Number_toString /\
      forall a s b : R,
        Border.pathData Number_toString Legacy.VIEW_BOX_WIDTH Legacy.VIEW_BOX_HEIGHT a s b =
        Legacy.generateWigglyPath Number_toString
          {| Legacy.waveAmplitude := Some a;
             Legacy.waveSegmentSize := Some s;
             Legacy.borderWidth := Some b |}.
Proof.
  intros (ts & Hav & Heq).
  specialize (Heq 4 25 4).
  unfold Legacy.generateWigglyPath in Heq.
  cbn [withDefault Legacy.waveAmplitude Legacy.waveSegmentSize Legacy.borderWidth] in Heq.
  rewrite pathData_render, Legacy_pathData_render in Heq.
  apply (f_equal (fun o => match o with Some p => countChar "C" p | None => O end)) in Heq.
  cbv beta iota in Heq.
  rewrite !countChar_C_render in Heq by exact Hav.
  rewrite !filter_app_length in Heq.
  destruct (splineCommands_kinds
              (Border.allPoints Legacy.VIEW_BOX_WIDTH Legacy.VIEW_BOX_HEIGHT 4 25 4))
    as (_ & Kn & _).
  destruct (splineCommands_kinds (Legacy.allPoints 4 25 4)) as (_ & Ko & _).
  rewrite Kn, Ko in Heq.
  pose proof (allPoints_length Legacy.VIEW_BOX_WIDTH Legacy.VIEW_BOX_HEIGHT 4 25 4) as Ln.
  pose proof (Legacy_allPoints_length 4 25 4) as Lo.
  rewrite fixed_viewBox_segments_25 in Ln. cbn [horizontal vertical] in Ln.
  destruct Legacy_segments_25 as [Eh Ev]. rewrite Eh, Ev in Lo.
  lia.
Qed.

(** C3 (amended): the two generations differ in the Coordinate Space Sizer
    and in the segment counts (the older one takes
    [max 6 (floor (400 / s))] and [max 4 (floor (300 / s))] from the whole
    viewBox, the newer one [max 4 (round (length / s))] from the inset edge
    lengths).  Edge sampling, spline conversion and assembly are the same:
    on the 400x300 viewBox, whenever the two segment-count calculations
    agree, the two generations sample the same points and produce the same
    path string. *)
Theorem generations_agree_on_equal_counts (Number_toString : R -> string) (a s b : R)
    (Hcounts :
       Border.segments Legacy.VIEW_BOX_WIDTH Legacy.VIEW_BOX_HEIGHT a s b =
       {| horizontal := Legacy.horizontalSegments s;
          vertical := Legacy.verticalSegments s |}) :
  Border.allPoints Legacy.VIEW_BOX_WIDTH Legacy.VIEW_BOX_HEIGHT a s b =
    Legacy.allPoints a s b /\
  Border.pathData Number_toString Legacy.VIEW_BOX_WIDTH Legacy.VIEW_BOX_HEIGHT a s b =
    Legacy.generateWigglyPath Number_toString
      {| Legacy.waveAmplitude := Some a;
         Legacy.waveSegmentSize := Some s;
         Legacy.borderWidth := Some b |}.
Proof.
  assert (Border.allPoints Legacy.VIEW_BOX_WIDTH Legacy.VIEW_BOX_HEIGHT a s b =
          Legacy.allPoints a s b) as Hpoints.
  { unfold Border.allPoints, Border.topPoints, Border.rightPoints,
      Border.bottomPoints, Border.leftPoints.
    rewrite Hcounts. reflexivity. }
  split; [exact Hpoints |].
  unfold Legacy.generateWigglyPath, Legacy.pathData, Border.pathData.
  cbn [withDefault Legacy.waveAmplitude Legacy.waveSegmentSize Legacy.borderWidth].
  now rewrite Hpoints.
Qed.

Lemma generations_agree_on_equal_counts_witness :
  Border.allPoints Legacy.VIEW_BOX_WIDTH Legacy.VIEW_BOX_HEIGHT 4 50 4 =
    Legacy.allPoints 4 50 4 /\
  Border.pathData sampleToString Legacy.VIEW_BOX_WIDTH Legacy.VIEW_BOX_HEIGHT 4 50 4 =
    Legacy.generateWigglyPath sampleToString
      {| Legacy.waveAmplitude := Some 4;
         Legacy.waveSegmentSize := Some 50;
         Legacy.borderWidth := Some 4 |}.
Proof.
  apply (generations_agree_on_equal_counts sampleToString 4 50 4).
  unfold Border.segments, calculateSegments, Math.max,
    Border.horizontalLength, Border.verticalLength,
    Border.right, Border.left, Border.bottom, Border.top, Border.padding,
    Legacy.horizontalSegments, Legacy.verticalSegments,
    Legacy.VIEW_BOX_WIDTH, Legacy.VIEW_BOX_HEIGHT.
  rewrite (round_eq 8), (round_eq 6), (floor_eq 8), (floor_eq 6);
    [reflexivity | lra | lra | lra | lra].
Defined.

(** * Further properties of the code *)

(** ** The assembled sequence, index by index *)

Lemma nth_error_tl {A : Type} (l : list A) (k : nat) :
  nth_error (tl l) k = nth_error l (S k).
Proof. destruct l as [| a l]; [now destruct k | reflexivity]. Qed.

Lemma nth_error_removelast {A : Type} (l : list A) (k : nat) :
  (S k < List.length l)%nat -> nth_error (removelast l) k = nth_error l k.
Proof.
  intros Hk. rewrite removelast_firstn_len, nth_error_firstn.
  destruct (Nat.ltb_spec k (Nat.pred (List.length l))); [reflexivity | lia].
Qed.

(** The element at index [k] of four edges joined as the assembler joins
    them, by the edge it comes from. *)
Lemma joined_nth (top right bottom left : list Point) (h v k : nat) :
  List.length top = S h -> List.length right = S v ->
  List.length bottom = S h -> List.length left = S v ->
  nth_error (top ++ tl right ++ tl bottom ++ removelast (tl left)) k =
  if (k <=? h)%nat then nth_error top k
  else if (k <=? h + v)%nat then nth_error right (k - h)
  else if (k <=? h + v + h)%nat then nth_error bottom (k - h - v)
  else if (k <? h + v + h + v)%nat then nth_error left (k - h - v - h)
  else None.
Proof.
  intros Lt Lr Lb Ll.
  destruct (Nat.leb_spec k h) as [H1 | H1].
  { apply nth_error_app1. lia. }
  rewrite nth_error_app2 by lia. rewrite Lt.
  destruct (Nat.leb_spec k (h + v)) as [H2 | H2].
  { rewrite nth_error_app1 by (rewrite length_tl; lia).
    rewrite nth_error_tl. f_equal. lia. }
  rewrite nth_error_app2 by (rewrite length_tl; lia). rewrite length_tl, Lr.
  destruct (Nat.leb_spec k (h + v + h)) as [H3 | H3].
  { rewrite nth_error_app1 by (rewrite length_tl; lia).
    rewrite nth_error_tl. f_equal. lia. }
  rewrite nth_error_app2 by (rewrite length_tl; lia). rewrite length_tl, Lb.
  destruct (Nat.ltb_spec k (h + v + h + v)) as [H4 | H4].
  { rewrite nth_error_removelast by (rewrite length_tl; lia).
    rewrite nth_error_tl. f_equal. lia. }
  apply nth_error_None. rewrite length_removelast, length_tl. lia.
Qed.

Lemma generateEdgePoints_nth_nat sx sy ex ey segments amplitude seed perp (k : nat) :
  (Z.of_nat k <= segments)%Z ->
  nth_error (generateEdgePoints sx sy ex ey segments amplitude seed perp) k =
  Some (edgePointAt sx sy ex ey segments amplitude seed perp (Z.of_nat k)).
Proof.
  intros Hk.
  rewrite <- (generateEdgePoints_nth sx sy ex ey segments amplitude seed perp (Z.of_nat k))
    by lia.
  now rewrite Nat2Z.id.
Qed.

(** Every index of four joined edges, by the edge and the index on that
    edge that it comes from. *)
Lemma joinedEdges_get (left top right bottom : R) (h v : Z) (a : R) (k : Z) :
  (1 <= h)%Z -> (1 <= v)%Z ->
  ((0 <= k <= h)%Z ->
   Array_get (joinedEdges left top right bottom h v a) k =
   Some (edgePointAt left top right top h a EDGE_SEEDS.top {| px := 0; py := -1 |} k)) /\
  ((h < k <= h + v)%Z ->
   Array_get (joinedEdges left top right bottom h v a) k =
   Some (edgePointAt right top right bottom v a EDGE_SEEDS.right {| px := 1; py := 0 |}
           (k - h))) /\
  ((h + v < k <= h + v + h)%Z ->
   Array_get (joinedEdges left top right bottom h v a) k =
   Some (edgePointAt right bottom left bottom h a EDGE_SEEDS.bottom {| px := 0; py := 1 |}
           (k - h - v))) /\
  ((h + v + h < k < h + v + h + v)%Z ->
   Array_get (joinedEdges left top right bottom h v a) k =
   Some (edgePointAt left bottom left top v a EDGE_SEEDS.left {| px := -1; py := 0 |}
           (k - h - v - h))).
Proof.
  intros Hh Hv.
  assert (forall j : Z, (0 <= j)%Z ->
            Array_get (joinedEdges left top right bottom h v a) j =
            let n := Z.to_nat j in
            if (n <=? Z.to_nat h)%nat
            then nth_error (generateEdgePoints left top right top h a EDGE_SEEDS.top
                              {| px := 0; py := -1 |}) n
            else if (n <=? Z.to_nat h + Z.to_nat v)%nat
            then nth_error (generateEdgePoints right top right bottom v a EDGE_SEEDS.right
                              {| px := 1; py := 0 |}) (n - Z.to_nat h)
            else if (n <=? Z.to_nat h + Z.to_nat v + Z.to_nat h)%nat
            then nth_error (generateEdgePoints right bottom left bottom h a EDGE_SEEDS.bottom
                              {| px := 0; py := 1 |}) (n - Z.to_nat h - Z.to_nat v)
            else if (n <? Z.to_nat h + Z.to_nat v + Z.to_nat h + Z.to_nat v)%nat
            then nth_error (generateEdgePoints left bottom left top v a EDGE_SEEDS.left
                              {| px := -1; py := 0 |})
                   (n - Z.to_nat h - Z.to_nat v - Z.to_nat h)
            else None) as Hget.
  { intros j Hj. unfold Array_get, joinedEdges.
    replace (j <? 0)%Z with false by (symmetry; apply Z.ltb_ge; lia).
    cbn zeta. apply joined_nth; rewrite generateEdgePoints_length; lia. }
  cbn zeta in Hget.
  repeat split; intros Hk; rewrite Hget by lia.
  - replace (Z.to_nat k <=? Z.to_nat h)%nat with true by (symmetry; apply Nat.leb_le; lia).
    rewrite generateEdgePoints_nth_nat by lia. do 2 f_equal. lia.
  - replace (Z.to_nat k <=? Z.to_nat h)%nat with false by (symmetry; apply Nat.leb_gt; lia).
    replace (Z.to_nat k <=? Z.to_nat h + Z.to_nat v)%nat with true
      by (symmetry; apply Nat.leb_le; lia).
    rewrite generateEdgePoints_nth_nat by lia. do 2 f_equal. lia.
  - replace (Z.to_nat k <=? Z.to_nat h)%nat with false by (symmetry; apply Nat.leb_gt; lia).
    replace (Z.to_nat k <=? Z.to_nat h + Z.to_nat v)%nat with false
      by (symmetry; apply Nat.leb_gt; lia).
    replace (Z.to_nat k <=? Z.to_nat h + Z.to_nat v + Z.to_nat h)%nat with true
      by (symmetry; apply Nat.leb_le; lia).
    rewrite generateEdgePoints_nth_nat by lia. do 2 f_equal. lia.
  - replace (Z.to_nat k <=? Z.to_nat h)%nat with false by (symmetry; apply Nat.leb_gt; lia).
    replace (Z.to_nat k <=? Z.to_nat h + Z.to_nat v)%nat with false
      by (symmetry; apply Nat.leb_gt; lia).
    replace (Z.to_nat k <=? Z.to_nat h + Z.to_nat v + Z.to_nat h)%nat with false
      by (symmetry; apply Nat.leb_gt; lia).
    replace (Z.to_nat k <? Z.to_nat h + Z.to_nat v + Z.to_nat h + Z.to_nat v)%nat with true
      by (symmetry; apply Nat.ltb_lt; lia).
    rewrite generateEdgePoints_nth_nat by lia. do 2 f_equal. lia.
Qed.

Lemma joinedEdges_length (left top right bottom : R) (h v : Z) (a : R) :
  (1 <= h)%Z -> (1 <= v)%Z ->
  Z.of_nat (List.length (joinedEdges left top right bottom h v a)) = (2 * (h + v))%Z.
Proof.
  intros Hh Hv. unfold joinedEdges.
  rewrite !length_app, length_removelast, !length_tl, !generateEdgePoints_length. lia.
Qed.

Lemma allPoints_joined W H a s b :
  Border.allPoints W H a s b =
  joinedEdges (Border.left a b) (Border.top a b) (Border.right W a b) (Border.bottom H a b)
    (horizontal (Border.segments W H a s b)) (vertical (Border.segments W H a s b)) a.
Proof. now rewrite allPoints_concat. Qed.


Lemma allPoints_get W H a s b (k : Z) :
  let h := horizontal (Border.segments W H a s b) in
  let v := vertical (Border.segments W H a s b) in
  let left := Border.left a b in
  let right := Border.right W a b in
  let top := Border.top a b in
  let bottom := Border.bottom H a b in
  ((0 <= k <= h)%Z ->
   Array_get (Border.allPoints W H a s b) k =
   Some (edgePointAt left top right top h a EDGE_SEEDS.top {| px := 0; py := -1 |} k)) /\
  ((h < k <= h + v)%Z ->
   Array_get (Border.allPoints W H a s b) k =
   Some (edgePointAt right top right bottom v a EDGE_SEEDS.right {| px := 1; py := 0 |}
           (k - h))) /\
  ((h + v < k <= h + v + h)%Z ->
   Array_get (Border.allPoints W H a s b) k =
   Some (edgePointAt right bottom left bottom h a EDGE_SEEDS.bottom {| px := 0; py := 1 |}
           (k - h - v))) /\
  ((h + v + h < k < h + v + h + v)%Z ->
   Array_get (Border.allPoints W H a s b) k =
   Some (edgePointAt left bottom left top v a EDGE_SEEDS.left {| px := -1; py := 0 |}
           (k - h - v - h))).
Proof.
  cbn zeta. rewrite allPoints_joined.
  destruct (calculateSegments_ge_4 (Border.horizontalLength W a b)
              (Border.verticalLength H a b) s) as [Hh Hv].
  fold (Border.segments W H a s b) in Hh, Hv.
  apply joinedEdges_get; lia.
Qed.

Lemma splineCommands_curve (points : list Point) (i : nat) :
  (S i < List.length points)%nat ->
  nth_error (splineCommands points) (S i) = Some (catmullRomCurve points i).
Proof.
  intros Hi. unfold splineCommands. cbn [nth_error].
  rewrite nth_error_map, nth_error_nth' with (d := O) by (rewrite length_seq; lia).
  rewrite seq_nth by lia. reflexivity.
Qed.

(** X2: the spline does not return to its first point.  For every valid
    parameter set the last point of the assembled sequence, where the last
    curve of the emitted path ends, is the waved point of the left edge one
    segment before the top-left corner; the command after that curve is the
    close-path, so the stretch from there to the first corner is the
    straight line that closing draws.  That point differs from the first
    corner whenever the working rectangle has a height. *)
Theorem closing_stretch (a s b tw th : R) (Hvalid : ValidParameters a s b tw th) :
  let W := width (calculateViewBox tw th) in
  let H := height (calculateViewBox tw th) in
  let v := vertical (Border.segments W H a s b) in
  let allPoints := Border.allPoints W H a s b in
  let commands := splineCommands allPoints ++ [ClosePath] in
  let n := Array_length allPoints in
  let q := {| px := (a + b)
                    - getOrganicOffset (IZR (v - 1)) a EDGE_SEEDS.left * direction (v - 1);
              py := (a + b) + (H - 2 * (a + b)) / IZR v |} in
  Array_get allPoints (n - 1) = Some q /\
  (exists cp1 cp2, Array_get commands (n - 1) = Some (CurveTo cp1 cp2 q)) /\
  Array_get commands n = Some ClosePath /\
  Array_get commands 0 = Some (MoveTo {| px := a + b; py := a + b |}) /\
  (H <> 2 * (a + b) -> q <> {| px := a + b; py := a + b |}).
Proof.
  cbn zeta.
  set (W := width (calculateViewBox tw th)).
  set (H := height (calculateViewBox tw th)).
  destruct (calculateSegments_ge_4 (Border.horizontalLength W a b)
              (Border.verticalLength H a b) s) as [Hh Hv].
  fold (Border.segments W H a s b) in Hh, Hv.
  pose proof (allPoints_length W H a s b) as Hlen.
  set (h := horizontal (Border.segments W H a s b)) in *.
  set (v := vertical (Border.segments W H a s b)) in *.
  set (pts := Border.allPoints W H a s b) in *.
  assert (IZR v <> 0) as Hvz by (apply not_0_IZR; lia).
  set (q := {| px := (a + b)
                     - getOrganicOffset (IZR (v - 1)) a EDGE_SEEDS.left * direction (v - 1);
               py := (a + b) + (H - 2 * (a + b)) / IZR v |}).
  assert (Array_get pts (Array_length pts - 1) = Some q) as Hq.
  { unfold Array_length. rewrite Hlen.
    destruct (allPoints_get W H a s b (2 * (h + v) - 1)) as (_ & _ & _ & G).
    cbn zeta in G. fold h v pts in G. rewrite G by lia.
    replace (2 * (h + v) - 1 - h - v - h)%Z with (v - 1)%Z by lia.
    pose proof (edgePointAt_interior
                  {| px := Border.left a b; py := Border.bottom H a b |}
                  {| px := Border.left a b; py := Border.top a b |}
                  v a EDGE_SEEDS.left {| px := -1; py := 0 |} (v - 1) ltac:(lia)) as E.
    cbn [px py] in E. rewrite E. f_equal.
    cbv [padd lerp pscale psub px py q Border.left Border.bottom Border.top Border.padding].
    rewrite minus_IZR. f_equal; field; exact Hvz. }
  assert (0 <= Array_length pts - 1)%Z as Hpos by (unfold Array_length; lia).
  assert (2 <= List.length pts)%nat as Hlong by lia.
  assert (pts <> []) as Hne0 by (intros E; rewrite E in Hlong; cbn in Hlong; lia).
  assert (first_is : nth_error pts 0 = Some {| px := a + b; py := a + b |}).
  { destruct (allPoints_get W H a s b 0) as (G & _).
    cbn zeta in G. fold h v pts in G. specialize (G ltac:(lia)).
    unfold Array_get in G. cbn [Z.ltb Z.compare Z.to_nat] in G. rewrite G.
    now rewrite edgePointAt_first. }
  split; [exact Hq |].
  unfold Array_get in Hq |- *.
  replace (Array_length pts - 1 <? 0)%Z with false in * by (symmetry; apply Z.ltb_ge; lia).
  replace (Array_length pts <? 0)%Z with false by (symmetry; apply Z.ltb_ge; lia).
  cbn [Z.ltb Z.compare Z.to_nat].
  unfold Array_length in *.
  replace (Z.to_nat (Z.of_nat (List.length pts) - 1)) with (S (List.length pts - 2)) in *
    by lia.
  rewrite Nat2Z.id.
  repeat split.
  - exists (padd (nth (List.length pts - 2) pts origin)
              (pscale (tension / 3)
                 (psub (nth (List.length pts - 2 + 1) pts origin)
                       (nth (Nat.max 0 (List.length pts - 2 - 1)) pts origin)))),
           (psub (nth (List.length pts - 2 + 1) pts origin)
              (pscale (tension / 3)
                 (psub (nth (Nat.min (List.length pts - 1) (List.length pts - 2 + 2))
                          pts origin)
                       (nth (List.length pts - 2) pts origin)))).
    rewrite nth_error_app1 by (rewrite splineCommands_length; [lia | exact Hne0]).
    rewrite splineCommands_curve by lia.
    unfold catmullRomCurve. cbv zeta.
    replace (List.length pts - 2 + 1)%nat with (S (List.length pts - 2)) by lia.
    now rewrite (nth_error_nth pts _ origin Hq).
  - rewrite nth_error_app2 by (rewrite splineCommands_length; [lia | exact Hne0]).
    rewrite splineCommands_length by exact Hne0.
    now rewrite Nat.sub_diag.
  - cbn [app splineCommands nth_error]. do 2 f_equal.
    now apply nth_error_nth.
  - intros Hne E. unfold q in E. injection E as _ Ey.
    assert ((H - 2 * (a + b)) / IZR v = 0) as Hz by lra.
    apply Hne.
    assert (H - 2 * (a + b) = (H - 2 * (a + b)) / IZR v * IZR v) as Hm by (field; exact Hvz).
    rewrite Hz in Hm. lra.
Qed.

Lemma closing_stretch_witness :
  let W := width (calculateViewBox 400 300) in
  let H := height (calculateViewBox 400 300) in
  let v := vertical (Border.segments W H 4 25 4) in
  let allPoints := Border.allPoints W H 4 25 4 in
  let commands := splineCommands allPoints ++ [ClosePath] in
  let n := Array_length allPoints in
  let q := {| px := (4 + 4)
                    - getOrganicOffset (IZR (v - 1)) 4 EDGE_SEEDS.left * direction (v - 1);
              py := (4 + 4) + (H - 2 * (4 + 4)) / IZR v |} in
  Array_get allPoints (n - 1) = Some q /\
  (exists cp1 cp2, Array_get commands (n - 1) = Some (CurveTo cp1 cp2 q)) /\
  Array_get commands n = Some ClosePath /\
  Array_get commands 0 = Some (MoveTo {| px := 4 + 4; py := 4 + 4 |}) /\
  (H <> 2 * (4 + 4) -> q <> {| px := 4 + 4; py := 4 + 4 |}).
Proof.
  apply (closing_stretch 4 25 4 400 300).
  unfold ValidParameters. lra.
Defined.

(** ** The sampled points stay inside the viewBox *)






Lemma calculateViewBox_at_least_base (tw th : R) :
  0 < tw -> 0 < th ->
  BASE_VIEWBOX_SIZE <= width (calculateViewBox tw th) /\
  BASE_VIEWBOX_SIZE <= height (calculateViewBox tw th).
Proof.
  intros Hw Hh. unfold calculateViewBox, BASE_VIEWBOX_SIZE.
  assert (0 < tw / th) as Hq by (apply Rdiv_lt_0_compat; lra).
  destruct (Rge_dec (tw / th) 1) as [g | n]; cbn [width height].
  - split; [nra | lra].
  - split; [lra |].
    assert (tw / th < 1) as Hlt by lra.
    apply (Rmult_le_reg_r (tw / th)); [lra |].
    unfold Rdiv at 2. rewrite Rmult_assoc, Rinv_l by lra. nra.
Qed.




(** ** The Coordinate Space Sizer and the Segment Density Calculator *)

(** X4: the result depends on the target size only through its aspect
    ratio: scaling both target dimensions by the same non-zero factor
    changes neither the viewBox nor the path. *)
Theorem path_depends_on_ratio (Number_toString : R -> string) (a s b tw th k : R)
    (Hk : k <> 0) (Hth : th <> 0) :
  calculateViewBox (k * tw) (k * th) = calculateViewBox tw th /\
  generateWigglyPath Number_toString
    {| waveAmplitude := Some a; waveSegmentSize := Some s; borderWidth := Some b;
       targetWidth := Some (k * tw); targetHeight := Some (k * th) |} =
  generateWigglyPath Number_toString
    {| waveAmplitude := Some a; waveSegmentSize := Some s; borderWidth := Some b;
       targetWidth := Some tw; targetHeight := Some th |}.
Proof.
  assert (calculateViewBox (k * tw) (k * th) = calculateViewBox tw th) as E.
  { unfold calculateViewBox.
    replace (k * tw / (k * th)) with (tw / th) by (field; split; assumption).
    reflexivity. }
  split; [exact E |].
  unfold generateWigglyPath.
  cbn [withDefault waveAmplitude waveSegmentSize borderWidth targetWidth targetHeight].
  now rewrite E.
Qed.

Lemma path_depends_on_ratio_witness :
  calculateViewBox (2 * 400) (2 * 300) = calculateViewBox 400 300 /\
  generateWigglyPath sampleToString
    {| waveAmplitude := Some 4; waveSegmentSize := Some 25; borderWidth := Some 4;
       targetWidth := Some (2 * 400); targetHeight := Some (2 * 300) |} =
  generateWigglyPath sampleToString
    {| waveAmplitude := Some 4; waveSegmentSize := Some 25; borderWidth := Some 4;
       targetWidth := Some 400; targetHeight := Some 300 |}.
Proof. apply (path_depends_on_ratio sampleToString 4 25 4 400 300 2); lra. Defined.

(** X6: for positive target dimensions no dimension of the viewBox is below
    the base constant and the smaller one is the base constant; so whenever
    the padding is below half the base constant the working rectangle has a
    positive width and a positive height. *)
Theorem working_rectangle_nondegenerate (tw th : R) (Hw : 0 < tw) (Hh : 0 < th) :
  let W := width (calculateViewBox tw th) in
  let H := height (calculateViewBox tw th) in
  BASE_VIEWBOX_SIZE <= W /\
  BASE_VIEWBOX_SIZE <= H /\
  Rmin W H = BASE_VIEWBOX_SIZE /\
  (forall a b : R, a + b < BASE_VIEWBOX_SIZE / 2 ->
     0 < Border.horizontalLength W a b /\ 0 < Border.verticalLength H a b).
Proof.
  cbn zeta.
  destruct (calculateViewBox_at_least_base tw th Hw Hh) as [HW HH].
  repeat split; try assumption.
  - unfold calculateViewBox in *.
    destruct (Rge_dec (tw / th) 1); cbn [width height] in *.
    + now apply Rmin_right.
    + now apply Rmin_left.
  - unfold Border.horizontalLength, Border.right, Border.left, Border.padding,
      BASE_VIEWBOX_SIZE in *. lra.
  - unfold Border.verticalLength, Border.bottom, Border.top, Border.padding,
      BASE_VIEWBOX_SIZE in *. lra.
Qed.

Lemma working_rectangle_nondegenerate_witness :
  let W := width (calculateViewBox 400 300) in
  let H := height (calculateViewBox 400 300) in
  BASE_VIEWBOX_SIZE <= W /\
  BASE_VIEWBOX_SIZE <= H /\
  Rmin W H = BASE_VIEWBOX_SIZE /\
  (forall a b : R, a + b < BASE_VIEWBOX_SIZE / 2 ->
     0 < Border.horizontalLength W a b /\ 0 < Border.verticalLength H a b).
Proof. apply (working_rectangle_nondegenerate 400 300); lra. Defined.

Lemma round_le (x y : R) : x <= y -> (Math.round x <= Math.round y)%Z.
Proof. intros H. unfold Math.round. apply Zfloor_le. lra. Qed.

Lemma div_le_numerator (l1 l2 s : R) : 0 < s -> l1 <= l2 -> l1 / s <= l2 / s.
Proof.
  intros Hs Hl. unfold Rdiv. apply Rmult_le_compat_r; [| exact Hl].
  left. now apply Rinv_0_lt_compat.
Qed.

Lemma div_le_denominator (l s1 s2 : R) : 0 <= l -> 0 < s1 -> s1 <= s2 -> l / s2 <= l / s1.
Proof.
  intros Hl Hs Hle. unfold Rdiv. apply Rmult_le_compat_l; [exact Hl |].
  apply Rinv_le_contravar; assumption.
Qed.

(** X7: the segment counts are monotone: for a positive segment size a
    longer edge never gets fewer segments, and for a non-negative edge length
    a larger segment size never gives more segments. *)
Theorem calculateSegments_monotone (h1 h2 v1 v2 s : R) (Hs : 0 < s)
    (Hh : h1 <= h2) (Hv : v1 <= v2) :
  (horizontal (calculateSegments h1 v1 s) <= horizontal (calculateSegments h2 v2 s))%Z /\
  (vertical (calculateSegments h1 v1 s) <= vertical (calculateSegments h2 v2 s))%Z /\
  (forall s' : R, s <= s' -> 0 <= h1 -> 0 <= v1 ->
     (horizontal (calculateSegments h1 v1 s') <= horizontal (calculateSegments h1 v1 s))%Z /\
     (vertical (calculateSegments h1 v1 s') <= vertical (calculateSegments h1 v1 s))%Z).
Proof.
  unfold calculateSegments, Math.max. cbn [horizontal vertical].
  pose proof (round_le _ _ (div_le_numerator h1 h2 s Hs Hh)).
  pose proof (round_le _ _ (div_le_numerator v1 v2 s Hs Hv)).
  repeat split; try lia.
  - pose proof (round_le _ _ (div_le_denominator h1 s s' H2 Hs H1)). lia.
  - pose proof (round_le _ _ (div_le_denominator v1 s s' H3 Hs H1)). lia.
Qed.

Lemma calculateSegments_monotone_witness :
  (horizontal (calculateSegments 384 284 25) <= horizontal (calculateSegments 500 300 25))%Z /\
  (vertical (calculateSegments 384 284 25) <= vertical (calculateSegments 500 300 25))%Z /\
  (forall s' : R, 25 <= s' -> 0 <= 384 -> 0 <= 284 ->
     (horizontal (calculateSegments 384 284 s') <= horizontal (calculateSegments 384 284 25))%Z /\
     (vertical (calculateSegments 384 284 s') <= vertical (calculateSegments 384 284 25))%Z).
Proof. apply (calculateSegments_monotone 384 500 284 300 25); lra. Defined.

Lemma round_ge_4 (x : R) : 3.5 <= x -> (4 <= Math.round x)%Z.
Proof. intros Hx. unfold Math.round. apply (Zfloor_lub 4). lra. Qed.

(** The spacing an edge of length [l] gets from [round (l / s)] segments,
    once there are at least 4 of them. *)
Lemma spacing_close (l s : R) :
  0 < s -> 3.5 * s <= l ->
  let n := Z.max 4 (Math.round (l / s)) in
  n = Math.round (l / s) /\
  s * (1 - 1 / (2 * IZR n)) <= l / IZR n < s * (1 + 1 / (2 * IZR n)) /\
  0.875 * s <= l / IZR n <= 1.125 * s.
Proof.
  intros Hs Hl. cbn zeta.
  assert (3.5 <= l / s) as Hq.
  { apply (Rmult_le_reg_r s); [exact Hs |].
    unfold Rdiv. rewrite Rmult_assoc, Rinv_l by lra. lra. }
  pose proof (round_ge_4 _ Hq) as H4.
  replace (Z.max 4 (Math.round (l / s))) with (Math.round (l / s)) by lia.
  split; [reflexivity |].
  pose proof (round_bounds (l / s)) as [Blo Bhi].
  set (n := IZR (Math.round (l / s))) in *.
  assert (4 <= n) as Hn by (apply (IZR_le 4); exact H4).
  clearbody n.
  assert (l = l / s * s) as El by (field; lra).
  assert (s * (n - 0.5) <= l < s * (n + 0.5)) as [Llo Lhi] by nra.
  assert (0 < / n) as Hi by (apply Rinv_0_lt_compat; lra).
  assert (n * / n = 1) as Hni by (apply Rinv_r; lra).
  assert (/ n <= / 4) as Hi4 by (apply Rinv_le_contravar; lra).
  assert (1 / (2 * n) = / n * / 2) as -> by (field; lra).
  unfold Rdiv.
  set (i := / n) in *. clearbody i.
  assert (s * n * i = s) as Hsn by (rewrite Rmult_assoc, Hni; ring).
  assert (0 < s * i) as Hsi by (apply Rmult_lt_0_compat; lra).
  assert (s * i <= s * / 4) as Hsi4 by (apply Rmult_le_compat_l; lra).
  assert (s * (n - 0.5) * i <= l * i) as A1 by (apply Rmult_le_compat_r; lra).
  assert (l * i < s * (n + 0.5) * i) as A2 by (apply Rmult_lt_compat_r; lra).
  replace (s * (n - 0.5) * i) with (s * n * i - 0.5 * (s * i)) in A1 by ring.
  replace (s * (n + 0.5) * i) with (s * n * i + 0.5 * (s * i)) in A2 by ring.
  rewrite Hsn in A1, A2.
  replace (s * (1 - i * / 2)) with (s - 0.5 * (s * i)) by lra.
  replace (s * (1 + i * / 2)) with (s + 0.5 * (s * i)) by lra.
  repeat split; lra.
Qed.

(** X8: uniform density.  For a positive segment size, an edge that is at
    least 3.5 segment sizes long is cut in [round (length / size)] segments
    whose actual length differs from the requested size by at most the
    fraction [1 / (2 n)] of it, hence by at most one eighth. *)
Theorem segment_spacing (h v s : R) (Hs : 0 < s) (Hh : 3.5 * s <= h) (Hv : 3.5 * s <= v) :
  let nh := horizontal (calculateSegments h v s) in
  let nv := vertical (calculateSegments h v s) in
  s * (1 - 1 / (2 * IZR nh)) <= h / IZR nh < s * (1 + 1 / (2 * IZR nh)) /\
  s * (1 - 1 / (2 * IZR nv)) <= v / IZR nv < s * (1 + 1 / (2 * IZR nv)) /\
  0.875 * s <= h / IZR nh <= 1.125 * s /\
  0.875 * s <= v / IZR nv <= 1.125 * s.
Proof.
  cbn zeta. unfold calculateSegments, Math.max. cbn [horizontal vertical].
  destruct (spacing_close h s Hs Hh) as (_ & A & B).
  destruct (spacing_close v s Hs Hv) as (_ & C & D).
  cbn zeta in A, B, C, D. tauto.
Qed.

Lemma segment_spacing_witness :
  let nh := horizontal (calculateSegments 384 284 25) in
  let nv := vertical (calculateSegments 384 284 25) in
  25 * (1 - 1 / (2 * IZR nh)) <= 384 / IZR nh < 25 * (1 + 1 / (2 * IZR nh)) /\
  25 * (1 - 1 / (2 * IZR nv)) <= 284 / IZR nv < 25 * (1 + 1 / (2 * IZR nv)) /\
  0.875 * 25 <= 384 / IZR nh <= 1.125 * 25 /\
  0.875 * 25 <= 284 / IZR nv <= 1.125 * 25.
Proof. apply (segment_spacing 384 284 25); lra. Defined.

(** ** The shape of the spline *)

Lemma point_eq (p q : Point) : px p = px q -> py p = py q -> p = q.
Proof. destruct p, q. cbn. now intros -> ->. Qed.



(** X10: at its two ends the spline follows the chord.  On two points or
    more, the first curve leaves the first point towards the second (its
    first control point is one sixth of the way) and the last curve arrives
    at the last point from the one before (its second control point is one
    sixth of the way back); on exactly two points the path is therefore a
    straight segment. *)
Theorem spline_end_clamps (Number_toString : R -> string) (points : list Point)
    (Hn : (2 <= List.length points)%nat) :
  let n := List.length points in
  let p0 := nth 0 points origin in
  let p1 := nth 1 points origin in
  let pl := nth (n - 1) points origin in
  let pk := nth (n - 2) points origin in
  generateSmoothPath Number_toString points =
    Some (render Number_toString (splineCommands points)) /\
  (exists cp2, nth_error (splineCommands points) 1 =
               Some (CurveTo (padd p0 (pscale (1 / 6) (psub p1 p0))) cp2 p1)) /\
  (exists cp1, nth_error (splineCommands points) (n - 1) =
               Some (CurveTo cp1 (psub pl (pscale (1 / 6) (psub pl pk))) pl)) /\
  (n = 2%nat ->
   splineCommands points =
   [ MoveTo p0;
     CurveTo (padd p0 (pscale (1 / 6) (psub p1 p0)))
             (psub p1 (pscale (1 / 6) (psub p1 p0))) p1 ]).
Proof.
  cbn zeta. split; [now apply generateSmoothPath_render |].
  assert (forall q r : Point, pscale (tension / 3) (psub q r) = pscale (1 / 6) (psub q r))
    as Hsixth.
  { intros q r. apply point_eq; cbv [psub pscale px py tension]; lra. }
  repeat split.
  - eexists. rewrite splineCommands_curve by lia. unfold catmullRomCurve. cbv zeta.
    cbn [Nat.max Nat.sub Nat.add]. rewrite !Hsixth. reflexivity.
  - eexists.
    replace (List.length points - 1)%nat with (S (List.length points - 2)) at 1 by lia.
    rewrite splineCommands_curve by lia. unfold catmullRomCurve. cbv zeta.
    replace (List.length points - 2 + 1)%nat with (List.length points - 1)%nat by lia.
    replace (Nat.min (List.length points - 1) (List.length points - 2 + 2))
      with (List.length points - 1)%nat by lia.
    rewrite !Hsixth. reflexivity.
  - intros H2. unfold splineCommands. rewrite H2. cbn [Nat.sub seq map].
    unfold catmullRomCurve. cbv zeta. rewrite H2.
    cbn [Nat.max Nat.min Nat.sub Nat.add]. now rewrite !Hsixth.
Qed.

Lemma spline_end_clamps_witness :
  let points := [ {| px := 0; py := 0 |}; {| px := 6; py := 12 |} ] in
  let n := List.length points in
  let p0 := nth 0 points origin in
  let p1 := nth 1 points origin in
  let pl := nth (n - 1) points origin in
  let pk := nth (n - 2) points origin in
  generateSmoothPath sampleToString points =
    Some (render sampleToString (splineCommands points)) /\
  (exists cp2, nth_error (splineCommands points) 1 =
               Some (CurveTo (padd p0 (pscale (1 / 6) (psub p1 p0))) cp2 p1)) /\
  (exists cp1, nth_error (splineCommands points) (n - 1) =
               Some (CurveTo cp1 (psub pl (pscale (1 / 6) (psub pl pk))) pl)) /\
  (n = 2%nat ->
   splineCommands points =
   [ MoveTo p0;
     CurveTo (padd p0 (pscale (1 / 6) (psub p1 p0)))
             (psub p1 (pscale (1 / 6) (psub p1 p0))) p1 ]).
Proof.
  apply (spline_end_clamps sampleToString
           [ {| px := 0; py := 0 |}; {| px := 6; py := 12 |} ]).
  cbn. lia.
Defined.





(** ** The older generation *)

Lemma Legacy_segments_floors (s : R) :
  (6 <= Legacy.horizontalSegments s)%Z /\ (4 <= Legacy.verticalSegments s)%Z.
Proof. unfold Legacy.horizontalSegments, Legacy.verticalSegments, Math.max. lia. Qed.

(** X12: the older [generateWigglyPath] never throws: for a positive
    segment size it returns the text of one move-to, [2 (h + v) - 1] cubic
    Bezier commands and one close-path, where [h >= 6] and [v >= 4] are its
    segment counts; so its path has at least 19 curves. *)
Theorem Legacy_path_structure (Number_toString : R -> string) (a s b : R) (Hs : 0 < s) :
  let h := Legacy.horizontalSegments s in
  let v := Legacy.verticalSegments s in
  let allPoints := Legacy.allPoints a s b in
  let commands := splineCommands allPoints ++ [ClosePath] in
  (6 <= h)%Z /\ (4 <= v)%Z /\
  Array_length allPoints = (2 * (h + v))%Z /\
  Legacy.generateWigglyPath Number_toString
    {| Legacy.waveAmplitude := Some a;
       Legacy.waveSegmentSize := Some s;
       Legacy.borderWidth := Some b |} =
  Some (render Number_toString commands) /\
  Z.of_nat (List.length (filter isMoveTo commands)) = 1%Z /\
  Z.of_nat (List.length (filter isCurveTo commands)) = (2 * (h + v) - 1)%Z /\
  Z.of_nat (List.length (filter isClosePath commands)) = 1%Z /\
  (19 <= Z.of_nat (List.length (filter isCurveTo commands)))%Z.
Proof.
  cbn zeta.
  destruct (Legacy_segments_floors s) as [Hh Hv].
  pose proof (Legacy_allPoints_length a s b) as Hlen.
  destruct (splineCommands_kinds (Legacy.allPoints a s b)) as (Km & Kc & Kz).
  unfold Array_length.
  rewrite !filter_app_length, Km, Kc, Kz.
  cbn [filter isMoveTo isCurveTo isClosePath List.length].
  repeat split; try lia.
  unfold Legacy.generateWigglyPath.
  cbn [withDefault Legacy.waveAmplitude Legacy.waveSegmentSize Legacy.borderWidth].
  apply Legacy_pathData_render.
Qed.

Lemma Legacy_path_structure_witness :
  let h := Legacy.horizontalSegments 25 in
  let v := Legacy.verticalSegments 25 in
  let allPoints := Legacy.allPoints 4 25 4 in
  let commands := splineCommands allPoints ++ [ClosePath] in
  (6 <= h)%Z /\ (4 <= v)%Z /\
  Array_length allPoints = (2 * (h + v))%Z /\
  Legacy.generateWigglyPath sampleToString
    {| Legacy.waveAmplitude := Some 4;
       Legacy.waveSegmentSize := Some 25;
       Legacy.borderWidth := Some 4 |} =
  Some (render sampleToString commands) /\
  Z.of_nat (List.length (filter isMoveTo commands)) = 1%Z /\
  Z.of_nat (List.length (filter isCurveTo commands)) = (2 * (h + v) - 1)%Z /\
  Z.of_nat (List.length (filter isClosePath commands)) = 1%Z /\
  (19 <= Z.of_nat (List.length (filter isCurveTo commands)))%Z.
Proof. apply (Legacy_path_structure sampleToString 4 25 4). lra. Defined.



(** ** app.js: the colour controls *)

Lemma upperChar_hash (c : ascii) : App.upperChar c = "#"%char <-> c = "#"%char.
Proof.
  destruct c as [[] [] [] [] [] [] [] []]; vm_compute; split; intros E;
    solve [reflexivity | discriminate E].
Qed.

Lemma upperChar_hex (c : ascii) : App.isHexDigit (App.upperChar c) = App.isHexDigit c.
Proof. destruct c as [[] [] [] [] [] [] [] []]; reflexivity. Qed.

Lemma upperChar_idem (c : ascii) : App.upperChar (App.upperChar c) = App.upperChar c.
Proof. destruct c as [[] [] [] [] [] [] [] []]; reflexivity. Qed.

Lemma toUpperCase_length (s : string) :
  String.length (App.toUpperCase s) = String.length s.
Proof. induction s as [| c s IH]; cbn; [reflexivity | now rewrite IH]. Qed.

Lemma toUpperCase_hexDigits (s : string) :
  forallb App.isHexDigit (list_ascii_of_string (App.toUpperCase s)) =
  forallb App.isHexDigit (list_ascii_of_string s).
Proof.
  induction s as [| c s IH]; cbn [App.toUpperCase list_ascii_of_string forallb];
    [reflexivity | now rewrite upperChar_hex, IH].
Qed.

Lemma toUpperCase_idem (s : string) :
  App.toUpperCase (App.toUpperCase s) = App.toUpperCase s.
Proof.
  induction s as [| c s IH]; cbn [App.toUpperCase];
    [reflexivity | now rewrite upperChar_idem, IH].
Qed.

Lemma isHexColor_no_hash (c : ascii) (d : string) :
  c <> "#"%char -> App.isHexColor (String c d) = false.
Proof.
  intros Hc. destruct c as [[] [] [] [] [] [] [] []]; try reflexivity.
  now contradiction Hc.
Qed.

Lemma isHexColor_toUpperCase (s : string) :
  App.isHexColor (App.toUpperCase s) = App.isHexColor s.
Proof.
  destruct s as [| c d]; [reflexivity |].
  cbn [App.toUpperCase].
  destruct (Ascii.ascii_dec c "#"%char) as [-> | Hc].
  - change (App.upperChar "#"%char) with "#"%char.
    cbn [App.isHexColor]. now rewrite toUpperCase_length, toUpperCase_hexDigits.
  - assert (App.upperChar c <> "#"%char) as Hu
      by (intros E; apply Hc; exact (proj1 (upperChar_hash c) E)).
    now rewrite !isHexColor_no_hash.
Qed.

Lemma isHexColor_startsWithHash (s : string) :
  App.isHexColor s = true -> App.startsWithHash s = true.
Proof.
  destruct s as [| c d]; [discriminate |].
  destruct c as [[] [] [] [] [] [] [] []]; cbn; intros E; solve [reflexivity | discriminate E].
Qed.

Lemma isHexColor_double_hash (s : string) :
  App.startsWithHash s = true -> App.isHexColor ("#" ++ s) = false.
Proof.
  destruct s as [| c d]; [discriminate |]. intros Hs.
  assert (c = "#"%char) as ->.
  { destruct c as [[] [] [] [] [] [] [] []]; cbn in Hs; solve [reflexivity | discriminate Hs]. }
  cbn [append App.isHexColor list_ascii_of_string forallb].
  change (App.isHexDigit "#"%char) with false.
  now rewrite andb_false_r.
Qed.

Lemma onTextInput_cases (value : string) (c : App.ColorControl) :
  App.color (App.onTextInput value c) =
    (if App.isHexColor value then value
     else if App.isHexColor ("#" ++ value) then ("#" ++ value)%string
     else App.color c) /\
  App.text (App.onTextInput value c) = App.text c.
Proof.
  unfold App.onTextInput.
  destruct (App.isHexColor value) eqn:Hv.
  - rewrite (isHexColor_startsWithHash value Hv). rewrite andb_false_r. cbn [negb].
    rewrite Hv. split; reflexivity.
  - destruct value as [| ch rest].
    + cbn. split; reflexivity.
    + cbn [App.truthy andb].
      destruct (App.startsWithHash (String ch rest)) eqn:Hh; cbn [negb].
      * rewrite Hv, (isHexColor_double_hash _ Hh). split; reflexivity.
      * destruct (App.isHexColor ("#" ++ String ch rest)); split; reflexivity.
Qed.

(** X16: what the text field accepts.  Typing [value] stores [value] itself
    when it is a hex colour, [#value] when that is one (six hex digits typed
    without the hash), and otherwise leaves the stored colour as it is; the
    handler never rewrites the text field. *)
Theorem onTextInput_accepts (value : string) (c : App.ColorControl) :
  App.color (App.onTextInput value c) =
    (if App.isHexColor value then value
     else if App.isHexColor ("#" ++ value) then ("#" ++ value)%string
     else App.color c) /\
  App.text (App.onTextInput value c) = App.text c.
Proof. exact (onTextInput_cases value c). Qed.

Lemma handle_keeps_valid (c : App.ColorControl) (e : App.Event) :
  App.isHexColor (App.color c) = true -> App.fromBrowser e ->
  App.isHexColor (App.color (App.handle c e)) = true.
Proof.
  intros Hc He. destruct e as [value | value |]; cbn [App.handle App.fromBrowser] in *.
  - exact He.
  - destruct (onTextInput_cases value {| App.text := value; App.color := App.color c |})
      as [E _].
    rewrite E. cbn [App.color].
    destruct (App.isHexColor value) eqn:Hv; [exact Hv |].
    destruct (App.isHexColor ("#" ++ value)) eqn:Hp; [exact Hp | exact Hc].
  - exact Hc.
Qed.

(** X15: the stored colour stays a hex colour.  From a control whose colour
    has the form #RRGGBB, whatever is typed in the text field, and however
    often the field is left, the colour stored in the state still has that
    form, provided the colour picker reports colours of that form. *)
Theorem color_stays_valid (events : list App.Event) (c : App.ColorControl)
    (Hc : App.isHexColor (App.color c) = true)
    (Hevents : Forall App.fromBrowser events) :
  App.isHexColor (App.color (App.run events c)) = true.
Proof.
  unfold App.run. revert c Hc.
  induction Hevents as [| e events He _ IH]; intros c Hc; cbn [fold_left].
  - exact Hc.
  - apply IH. now apply handle_keeps_valid.
Qed.

Lemma color_stays_valid_witness :
  App.isHexColor
    (App.color
       (App.run [ App.TextInput "not a colour"; App.TextInput "ff8800"; App.TextBlur;
                  App.PickerInput "#00ff7f"; App.TextInput "#12345" ]
          {| App.text := "#FFF8EA"; App.color := "#FFF8EA" |})) = true.
Proof.
  apply (color_stays_valid
           [ App.TextInput "not a colour"; App.TextInput "ff8800"; App.TextBlur;
             App.PickerInput "#00ff7f"; App.TextInput "#12345" ]
           {| App.text := "#FFF8EA"; App.color := "#FFF8EA" |}).
  - reflexivity.
  - repeat constructor.
Defined.

(** X17: leaving the text field and typing its content back.  For a stored
    hex colour, leaving the field shows the colour in upper case; that text
    is accepted when it is typed back and stores the upper-case form, after
    which the field and the state agree and leaving the field again changes
    nothing. *)
Theorem blur_round_trip (c : App.ColorControl)
    (Hc : App.isHexColor (App.color c) = true) :
  let shown := App.onTextBlur c in
  let retyped := App.handle shown (App.TextInput (App.text shown)) in
  App.text shown = App.toUpperCase (App.color c) /\
  App.color shown = App.color c /\
  App.isHexColor (App.text shown) = true /\
  retyped = {| App.text := App.toUpperCase (App.color c);
               App.color := App.toUpperCase (App.color c) |} /\
  App.onTextBlur retyped = retyped.
Proof.
  cbn zeta. cbn [App.onTextBlur App.text App.color App.handle].
  assert (App.isHexColor (App.toUpperCase (App.color c)) = true) as Hu
    by now rewrite isHexColor_toUpperCase.
  assert (App.onTextInput (App.toUpperCase (App.color c))
            {| App.text := App.toUpperCase (App.color c); App.color := App.color c |} =
          {| App.text := App.toUpperCase (App.color c);
             App.color := App.toUpperCase (App.color c) |}) as Hre.
  { unfold App.onTextInput.
    rewrite (isHexColor_startsWithHash _ Hu), andb_false_r, Hu. reflexivity. }
  rewrite Hre. unfold App.onTextBlur. cbn [App.text App.color].
  rewrite toUpperCase_idem. repeat split. exact Hu.
Qed.

Lemma blur_round_trip_witness :
  let c := {| App.text := "ff8800"; App.color := "#ff8800" |} in
  let shown := App.onTextBlur c in
  let retyped := App.handle shown (App.TextInput (App.text shown)) in
  App.text shown = App.toUpperCase (App.color c) /\
  App.color shown = App.color c /\
  App.isHexColor (App.text shown) = true /\
  retyped = {| App.text := App.toUpperCase (App.color c);
               App.color := App.toUpperCase (App.color c) |} /\
  App.onTextBlur retyped = retyped.
Proof.
  apply (blur_round_trip {| App.text := "ff8800"; App.color := "#ff8800" |}).
  reflexivity.
Defined.
